(** * libem: the K-Means bootstrap and the EM driver

    A shallow embedding of the numerical core of libem (the K-Means
    initializer of the EM library and the interface of [Matrix.h]).

    - A C++ [double] is an IEEE-754 binary64 number: Rocq's primitive
      [float], with the same rounding, infinities and NaN.
    - A C++ [int] is an integer of [Z]; the source only counts and
      indexes with it, far below the wrap-around.
    - An array is a [list]; an access outside its extent, or a read of a
      cell that was never written, is undefined behaviour in C++ and is
      [None] here.
    - A [for] loop is [for_lt]; the [while] loop of [kmeans] is
      [batch_loop], which may [Diverges] when it runs out of fuel. *)

From Stdlib Require Import ZArith List Lia Bool Floats QArith Ascii.
Import ListNotations.
Open Scope Z_scope.

(** ** Numbers *)

Definition double := float.

(** The implicit conversion [int -> double] of the source (exact for the
    counts it is applied to). *)
Definition double_of_int (z : Z) : double :=
  if z <? 0 then PrimFloat.opp (PrimFloat.of_uint63 (Uint63.of_Z (- z)))
  else PrimFloat.of_uint63 (Uint63.of_Z z).

(** [#define sqr(x) ((x)*(x))] *)
Definition sqr (x : double) : double := PrimFloat.mul x x.

Definition MAX_CLUSTERS : Z := 16.

(** ** Memory: arrays with checked accesses *)

Notation "x <- e ;; k" :=
  (match e with Some x => k | None => None end)
  (at level 61, e at next level, right associativity).
Notation "' p <- e ;; k" :=
  (match e with Some p => k | None => None end)
  (at level 61, p pattern, e at next level, right associativity).

Module Mem.

Definition load {A : Type} (a : list A) (i : Z) : option A :=
  if i <? 0 then None else nth_error a (Z.to_nat i).

Fixpoint update {A : Type} (a : list A) (i : nat) (v : A) : list A :=
  match a, i with
  | [], _ => []
  | _ :: t, O => v :: t
  | h :: t, S j => h :: update t j v
  end.

Definition store {A : Type} (a : list A) (i : Z) (v : A) : option (list A) :=
  if (0 <=? i) && (i <? Z.of_nat (length a))
  then Some (update a (Z.to_nat i) v)
  else None.

(** An [int] array whose cells may be uninitialised (a local array, as
    [carray] in [calc_cluster_centroids]). *)
Definition cells := list (option Z).

Definition load_init (a : cells) (i : Z) : option Z :=
  c <- load a i ;; c.

(** [malloc (sizeof(T) * n)]: [n] cells; every cell the source reads is
    written first, so the filling never shows. *)
Definition malloc {A : Type} (n : Z) (fill : A) : list A :=
  repeat fill (Z.to_nat n).

End Mem.
Import Mem.

(** [for (int ii = 0; ii < n; ii++) body]: the body at [0], [1], ...,
    threading the state it updates. *)
Fixpoint for_from {S : Type} (count : nat) (i : Z)
    (body : Z -> S -> option S) (s : S) : option S :=
  match count with
  | O => Some s
  | Datatypes.S c => s' <- body i s ;; for_from c (i + 1) body s'
  end.

Definition for_lt {S : Type} (n : Z) (body : Z -> S -> option S) (s : S)
  : option S :=
  for_from (Z.to_nat n) 0 body s.

(** ** Support functions of the K-Means initializer *)

(** [euclid_distance(dim, p1, p2)]; a pointer into an array is the array
    and an offset ([&X[ii*dim]] is [X] at [ii*dim]). *)
Definition euclid_distance (dim : Z) (p1 : list double) (o1 : Z)
    (p2 : list double) (o2 : Z) : option double :=
  for_lt dim
    (fun ii distance_sq_sum =>
       a <- load p1 (o1 + ii) ;;
       b <- load p2 (o2 + ii) ;;
       Some (PrimFloat.add distance_sq_sum (sqr (PrimFloat.sub a b))))
    0%float.

Definition all_distances (dim n k : Z) (X centroid distance_out : list double)
  : option (list double) :=
  for_lt n
    (fun ii out =>
       for_lt k
         (fun jj out =>
            d <- euclid_distance dim X (ii * dim) centroid (jj * dim) ;;
            store out (ii * k + jj) d)
         out)
    distance_out.

Definition calc_total_distance (dim n k : Z) (X centroids : list double)
    (cluster_assignment_index : list Z) : option double :=
  for_lt n
    (fun ii tot_D =>
       active_cluster <- load cluster_assignment_index ii ;;
       if active_cluster =? -1 then Some tot_D
       else
         d <- euclid_distance dim X (ii * dim) centroids (active_cluster * dim) ;;
         Some (PrimFloat.add tot_D d))
    0%float.

(** The inner loop of [choose_all_clusters_from_distances] for the point
    [ii]: the pair [(best_index, closest_distance)]. *)
Definition choose_cluster (k : Z) (distance_array : list double) (ii : Z)
  : option (Z * double) :=
  for_lt k
    (fun jj '(best_index, closest_distance) =>
       cur_distance <- load distance_array (ii * k + jj) ;;
       Some (if PrimFloat.ltb cur_distance closest_distance
             then (jj, cur_distance)
             else (best_index, closest_distance)))
    (-1, 100000%float).

(** [X] is a parameter the source never reads. *)
Definition choose_all_clusters_from_distances (dim n k : Z)
    (X distance_array : list double) (cluster_assignment_index : list Z)
  : option (list Z) :=
  for_lt n
    (fun ii out =>
       '(best_index, _) <- choose_cluster k distance_array ii ;;
       store out ii best_index)
    cluster_assignment_index.

Definition get_cluster_member_count (n k : Z)
    (cluster_assignment_index : list Z) (cluster_member_count : cells)
  : option cells :=
  cmc <- for_lt k (fun ii cmc => store cmc ii (Some 0)) cluster_member_count ;;
  for_lt n
    (fun ii cmc =>
       a <- load cluster_assignment_index ii ;;
       c <- load_init cmc a ;;
       store cmc a (Some (c + 1)))
    cmc.

(** [calc_cluster_centroids]: the centroid array after the call, and the
    clusters for which "Warning! Empty cluster." was printed.  The first
    loop only prints [new_cluster_centroid[b]]; the second writes the one
    cell [new_cluster_centroid[dim*k]], [k] times. *)
Definition calc_cluster_centroids (dim n k : Z) (X : list double)
    (cluster_assignment_index : list Z) (new_cluster_centroid : list double)
  : option (list double * list Z) :=
  _ <- for_lt k (fun b u => _ <- load new_cluster_centroid b ;; Some u) tt ;;
  let carray : cells := [None; None; None] in
  ncc <- for_lt k (fun ii ncc => store ncc (dim * k) 0%float)
           new_cluster_centroid ;;
  ncc <- for_lt n
           (fun ii ncc =>
              active_cluster <- load cluster_assignment_index ii ;;
              for_lt dim
                (fun jj ncc =>
                   s <- load ncc (active_cluster * dim + jj) ;;
                   x <- load X (ii * dim + jj) ;;
                   store ncc (active_cluster * dim + jj) (PrimFloat.add s x))
                ncc)
           ncc ;;
  '(ncc, _, warned) <-
    for_lt k
      (fun ii '(ncc, cluster_member_count, warned) =>
         cluster_member_count <-
           get_cluster_member_count n k cluster_assignment_index
             cluster_member_count ;;
         m <- load_init cluster_member_count ii ;;
         let warned := if m =? 0 then warned ++ [ii] else warned in
         ncc <- for_lt dim
                  (fun jj ncc =>
                     v <- load ncc (ii * dim + jj) ;;
                     store ncc (ii * dim + jj)
                       (PrimFloat.div v (double_of_int m)))
                  ncc ;;
         Some (ncc, cluster_member_count, warned))
      (ncc, carray, []) ;;
  Some (ncc, warned).

(** [cluster_diag] only prints; what matters is which cells it reads. *)
Definition cluster_diag (dim n k : Z) (X : list double)
    (cluster_assignment_index : list Z) (cluster_centroid : list double)
  : option unit :=
  cluster_member_count <-
    get_cluster_member_count n k cluster_assignment_index
      (malloc MAX_CLUSTERS None) ;;
  for_lt k
    (fun ii u =>
       _ <- load_init cluster_member_count ii ;;
       _ <- load cluster_centroid (ii * dim + 0) ;;
       Some u)
    tt.

Definition copy_assignment_array (n : Z) (src tgt : list Z) : option (list Z) :=
  for_lt n (fun ii tgt => v <- load src ii ;; store tgt ii v) tgt.

Definition assignment_change_count (n : Z) (a b : list Z) : option Z :=
  for_lt n
    (fun ii change_count =>
       x <- load a ii ;;
       y <- load b ii ;;
       Some (if x =? y then change_count else change_count + 1))
    0.

(** ** K-Means *)

(** What a run of a loop gives: a value, undefined behaviour (an access
    outside an array), or no answer within the fuel. *)
Inductive run (A : Type) : Type :=
| Returns (a : A)
| Undefined
| Diverges.
Arguments Returns {A} a.
Arguments Undefined {A}.
Arguments Diverges {A}.

(** The two arrays the parameter [cluster_centroid] of [kmeans] can point
    to: the caller's, and the local [array]. *)
Inductive centroid_ptr : Type := Caller | Local.

Record centroid_mem : Type := {
  caller_centroid : list double;
  array : list double
}.

Definition deref (m : centroid_mem) (p : centroid_ptr) : list double :=
  match p with
  | Caller => caller_centroid m
  | Local => array m
  end.

Definition assign (m : centroid_mem) (p : centroid_ptr) (v : list double)
  : centroid_mem :=
  match p with
  | Caller => {| caller_centroid := v; array := array m |}
  | Local => {| caller_centroid := caller_centroid m; array := v |}
  end.

(** The variables of [kmeans] that its main loop reads and writes. *)
Record kmeans_state : Type := {
  dist : list double;
  cluster_assignment_cur : list Z;
  cluster_assignment_prev : list Z;
  centroids : centroid_mem;
  prev_totD : double;
  batch_iteration : Z
}.

Inductive flow : Type := Break | Continue.

Section KMeans.

Variables (dim : Z) (X : list double) (n k : Z).
(** What the local pointer [cluster_centroid] points to in the loop. *)
Variable cluster_centroid : centroid_ptr.

(** One pass through the body of [while (batch_iteration < 100.)]. *)
Definition batch_body (s : kmeans_state) : option (flow * kmeans_state) :=
  _ <- cluster_diag dim n k X (cluster_assignment_cur s)
         (deref (centroids s) cluster_centroid) ;;
  '(c, _) <- calc_cluster_centroids dim n k X (cluster_assignment_cur s)
               (deref (centroids s) cluster_centroid) ;;
  let mem := assign (centroids s) cluster_centroid c in
  totD <- calc_total_distance dim n k X (deref mem cluster_centroid)
            (cluster_assignment_cur s) ;;
  if PrimFloat.ltb (prev_totD s) totD then
    cur <- copy_assignment_array n (cluster_assignment_prev s)
             (cluster_assignment_cur s) ;;
    '(c, _) <- calc_cluster_centroids dim n k X cur
                 (deref mem cluster_centroid) ;;
    Some (Break,
          {| dist := dist s;
             cluster_assignment_cur := cur;
             cluster_assignment_prev := cluster_assignment_prev s;
             centroids := assign mem cluster_centroid c;
             prev_totD := prev_totD s;
             batch_iteration := batch_iteration s |})
  else
    prev <- copy_assignment_array n (cluster_assignment_cur s)
              (cluster_assignment_prev s) ;;
    d <- all_distances dim n k X (deref mem cluster_centroid) (dist s) ;;
    (* the source passes [dist] for [X] and [X] for [distance_array] *)
    cur <- choose_all_clusters_from_distances dim n k d X
             (cluster_assignment_cur s) ;;
    change_count <- assignment_change_count n cur prev ;;
    if change_count =? 0 then
      Some (Break,
            {| dist := d;
               cluster_assignment_cur := cur;
               cluster_assignment_prev := prev;
               centroids := mem;
               prev_totD := prev_totD s;
               batch_iteration := batch_iteration s |})
    else
      Some (Continue,
            {| dist := d;
               cluster_assignment_cur := cur;
               cluster_assignment_prev := prev;
               centroids := mem;
               prev_totD := totD;
               batch_iteration := batch_iteration s + 1 |}).

(** [while (batch_iteration < 100.) { ... }]: the state the loop ends
    in, with the number of passes through its body. *)
Fixpoint batch_loop (fuel : nat) (passes : nat) (s : kmeans_state)
  : run (nat * kmeans_state) :=
  if batch_iteration s <? 100 then
    match fuel with
    | O => Diverges
    | S fuel' =>
        match batch_body s with
        | None => Undefined
        | Some (Break, s') => Returns (S passes, s')
        | Some (Continue, s') => batch_loop fuel' (S passes) s'
        end
    end
  else Returns (passes, s).

End KMeans.

(** The part of [kmeans] before its main loop.  The parameter
    [cluster_centroid] is overwritten with the address of the local
    [array] before it is ever used; [point_move_score] is allocated and
    never touched. *)
Definition kmeans_setup (dim : Z) (X : list double) (n k : Z)
    (cluster_centroid : list double) : option (centroid_ptr * kmeans_state) :=
  let dist := malloc (n * k) 0%float in
  let cluster_assignment_cur := malloc n 0 in
  let cluster_assignment_prev := malloc n 0 in
  let mem := {| caller_centroid := cluster_centroid;
                array := [0; 5; 10]%float |} in
  let cluster_centroid := Local in
  d <- all_distances dim n k X (deref mem cluster_centroid) dist ;;
  cur <- choose_all_clusters_from_distances dim n k X d
           cluster_assignment_cur ;;
  prev <- copy_assignment_array n cur cluster_assignment_prev ;;
  Some (cluster_centroid,
        {| dist := d;
           cluster_assignment_cur := cur;
           cluster_assignment_prev := prev;
           centroids := mem;
           prev_totD := 10000%float;
           batch_iteration := 0 |}).

(** [kmeans] up to the end of its main loop. *)
Definition kmeans_loop (dim : Z) (X : list double) (n k : Z)
    (cluster_centroid : list double) : run (nat * kmeans_state) :=
  match kmeans_setup dim X n k cluster_centroid with
  | None => Undefined
  | Some (cluster_centroid, s) => batch_loop dim X n k cluster_centroid 100 0 s
  end.

(** [kmeans]: the caller's two arrays after the call. *)
Definition kmeans (dim : Z) (X : list double) (n k : Z)
    (cluster_centroid : list double) (cluster_assignment_final : list Z)
  : run (list double * list Z) :=
  match kmeans_loop dim X n k cluster_centroid with
  | Returns (_, s) =>
      match copy_assignment_array n (cluster_assignment_cur s)
              cluster_assignment_final with
      | Some final => Returns (caller_centroid (centroids s), final)
      | None => Undefined
      end
  | Undefined => Undefined
  | Diverges => Diverges
  end.

(** ** The EM driver

    [EM] is pseudocode in the source.  What it fixes is the control of its
    loop, which is embedded here; [estep] and [mstep], which it leaves as
    sketches, are parameters, and so are the values [likelihood] and
    [old_likelihood] hold when the loop is first tested (the source never
    assigns them before). *)
Module EM.
Section Driver.

Variables sigma_t mu_t Pk_t theta_array : Type.

Record m_output_struct : Type := {
  sigma : sigma_t;
  mu : mu_t;
  Pk : Pk_t
}.

Record e_output_struct : Type := {
  theta : theta_array;
  e_likelihood : double
}.

Variable estep : sigma_t -> mu_t -> Pk_t -> e_output_struct.
Variable mstep : theta_array -> m_output_struct.
Variables (initial_sigma : sigma_t) (kmeans_mus : mu_t) (initial_Pk : Pk_t).
Variable epsilon : double.


Record state : Type := {
  likelihood : double;
  old_likelihood : double;
  counter : Z;
  m_output : option m_output_struct;
  e_output : option e_output_struct
}.

(** The body of the [while]; [counter] is never incremented, and
    [m_output] is read only when it is not 0. *)
Definition body (s : state) : option state :=
  let old := likelihood s in
  e <- (if counter s =? 0
        then Some (estep initial_sigma kmeans_mus initial_Pk)
        else m <- m_output s ;; Some (estep (sigma m) (mu m) (Pk m))) ;;
  let m := mstep (theta e) in
  Some {| likelihood := e_likelihood e;
          old_likelihood := old;
          counter := counter s;
          m_output := Some m;
          e_output := Some e |}.



End Driver.







End EM.

(** ** The matrix engine *)
Module Matrix.

Inductive error : Type := SizeError | LapackError.

(** [class Matrix]: its columns and its shape ([entries] and [changed]
    cache a column-major copy of [columns]). *)
Record t : Type := {
  columns : list (list double);
  numRows : Z;
  numCols : Z
}.

Definition rowCount (A : t) : Z := numRows A.
Definition colCount (A : t) : Z := numCols A.

Definition getValue (A : t) (row column : Z) : double :=
  nth (Z.to_nat row) (nth (Z.to_nat column) (columns A) []) 0%float.

Definition indices (n : Z) : list Z := map Z.of_nat (seq 0 (Z.to_nat n)).

Definition product (A B : t) : t :=
  {| columns :=
       map (fun j =>
              map (fun i =>
                     fold_left
                       (fun acc l =>
                          PrimFloat.add acc
                            (PrimFloat.mul (getValue A i l) (getValue B l j)))
                       (indices (numCols A)) 0%float)
                  (indices (numRows A)))
           (indices (numCols B));
     numRows := numRows A;
     numCols := numCols B |}.

(** Modelled from the spec: [Matrix::dot], which [Matrix.h] declares and
    whose definition (Matrix.cpp) is not among the sources.  "fails with
    a SizeError unless A's column count equals B's row count; returns an
    r(A) x c(B) matrix"; "do not mutate operands".  The value is the
    two operands after the call and what the call gives. *)
Definition dot (A B : t) : t * t * (error + t) :=
  if numCols A =? numRows B
  then (A, B, inr (product A B))
  else (A, B, inl SizeError).

(** The operands of the spec's scenario 4: a 3x2 and a 3x4 matrix. *)
Definition A_3x2 : t :=
  {| columns := [[1; 2; 3]; [4; 5; 6]]%float; numRows := 3; numCols := 2 |}.
Definition B_3x4 : t :=
  {| columns := [[1; 0; 0]; [0; 1; 0]; [0; 0; 1]; [1; 1; 1]]%float;
     numRows := 3; numCols := 4 |}.
Definition B_2x4 : t :=
  {| columns := [[1; 0]; [0; 1]; [1; 1]; [2; 0]]%float;
     numRows := 2; numCols := 4 |}.

End Matrix.

(** ** Inputs of the examples *)

(** The points 1 and 9 (one dimension), in a buffer of four doubles. *)
Definition X_1_9 : list double := [1; 9; 0; 0]%float.

(** The state of [kmeans 1 X_1_9 2 2] at the start of its main loop,
    after one pass through it, and after two. *)
Definition s0_1_9 : kmeans_state :=
  {| dist := [1; 16; 81; 16]%float;
     cluster_assignment_cur := [0; 1];
     cluster_assignment_prev := [0; 1];
     centroids := {| caller_centroid := []; array := [0; 5; 10]%float |};
     prev_totD := 10000%float;
     batch_iteration := 0 |}.

Definition s1_1_9 : kmeans_state :=
  {| dist := [0; 169; 64; 25]%float;
     cluster_assignment_cur := [0; 0];
     cluster_assignment_prev := [0; 1];
     centroids := {| caller_centroid := []; array := [1; 14; 0]%float |};
     prev_totD := 25%float;
     batch_iteration := 1 |}.

Definition s2_1_9 : kmeans_state :=
  {| dist := [0; 169; 64; 25]%float;
     cluster_assignment_cur := [0; 1];
     cluster_assignment_prev := [0; 1];
     centroids := {| caller_centroid := []; array := [6.5; infinity; 0]%float |};
     prev_totD := 25%float;
     batch_iteration := 1 |}.

(** ** Predicates the properties are stated with *)

(** After the candidates [0 .. j-1] of the point [ii]: either none of its
    distances is below 100000 and [best] is -1, or [best] is the lowest
    index whose distance [closest] is below 100000 and has no distance
    below it. *)
Definition nearest_among (k : Z) (d : list double) (ii j best : Z)
    (closest : double) : Prop :=
  (best = -1 /\ closest = 100000%float
   /\ forall jj x, 0 <= jj < j -> load d (ii * k + jj) = Some x ->
                   PrimFloat.ltb x 100000%float = false)
  \/ (0 <= best < j
      /\ load d (ii * k + best) = Some closest
      /\ PrimFloat.ltb closest 100000%float = true
      /\ (forall jj x, 0 <= jj < j -> load d (ii * k + jj) = Some x ->
                       PrimFloat.ltb x closest = false)
      /\ (forall jj x, 0 <= jj < best -> load d (ii * k + jj) = Some x ->
                       PrimFloat.leb x closest = false)).

(** The assignment [cur] holds, for each of the [n] points, the index
    [choose_cluster] computes from the table [d]. *)
Definition holds_choices (k : Z) (d : list double) (n : Z)
    (cur : list Z) : Prop :=
  forall ii, 0 <= ii < n ->
    exists best closest,
      choose_cluster k d ii = Some (best, closest) /\ load cur ii = Some best.

(** The first [n] cells of [a] and [b] hold the same values. *)
Definition same_cells (n : Z) (a b : list Z) : Prop :=
  forall ii, 0 <= ii < n -> exists v, load a ii = Some v /\ load b ii = Some v.

(** ** Reading a [run] *)

Definition run_map {A B : Type} (f : A -> B) (r : run A) : run B :=
  match r with
  | Returns a => Returns (f a)
  | Undefined => Undefined
  | Diverges => Diverges
  end.

(** The loop came to an end (or to undefined behaviour) after at most
    [cap] passes through its body. *)
Definition passes_within (cap : nat) (r : run (nat * kmeans_state)) : bool :=
  match r with
  | Returns (passes, _) => (passes <=? cap)%nat
  | Undefined => true
  | Diverges => false
  end.

(** The state [s] of [kmeans] with the caller's centroid array holding
    [c] instead. *)
Definition with_caller (c : list double) (s : kmeans_state) : kmeans_state :=
  {| dist := dist s;
     cluster_assignment_cur := cluster_assignment_cur s;
     cluster_assignment_prev := cluster_assignment_prev s;
     centroids := {| caller_centroid := c; array := array (centroids s) |};
     prev_totD := prev_totD s;
     batch_iteration := batch_iteration s |}.

Definition on_state {T : Type} (f : kmeans_state -> kmeans_state)
    (x : T * kmeans_state) : T * kmeans_state :=
  (fst x, f (snd x)).

(** ** Reading a line of CSV *)

Module CSV.

Definition NUL : ascii := ascii_of_nat 0.
Definition quote : ascii := ascii_of_nat 34.
Definition CR : ascii := ascii_of_nat 13.
Definition LF : ascii := ascii_of_nat 10.

(** The [while] loop of [ReadCSV] from the position where [line] is what
    is left to read.  It ends at the end of the line or at a NUL
    character; an escaped quote consumes two characters. *)
Fixpoint ReadCSV_loop (delimiter : ascii) (line : list ascii) (inquotes : bool)
    (curstring : list ascii) (record : list (list ascii)) : list (list ascii) :=
  match line with
  | [] => record ++ [curstring]
  | c :: rest =>
      if Ascii.eqb c NUL then record ++ [curstring]
      else if negb inquotes && (length curstring =? 0)%nat && Ascii.eqb c quote
      then ReadCSV_loop delimiter rest true curstring record
      else if inquotes && Ascii.eqb c quote then
        match rest with
        | c' :: rest' =>
            if Ascii.eqb c' quote
            then ReadCSV_loop delimiter rest' inquotes (curstring ++ [c]) record
            else ReadCSV_loop delimiter rest false curstring record
        | [] => ReadCSV_loop delimiter rest false curstring record
        end
      else if negb inquotes && Ascii.eqb c delimiter
      then ReadCSV_loop delimiter rest inquotes [quote] (record ++ [curstring])
      else if negb inquotes && (Ascii.eqb c CR || Ascii.eqb c LF)
      then record ++ [curstring]
      else ReadCSV_loop delimiter rest inquotes (curstring ++ [c]) record
  end.

(** [ReadCSV(record, line, delimiter)]: [record] after the call (its old
    contents are cleared first). *)
Definition ReadCSV (record : list (list ascii)) (line : list ascii) (delimiter : ascii)
  : list (list ascii) :=
  ReadCSV_loop delimiter line false [] [].

(** A character that [ReadCSV] copies as it is outside quotes. *)
Definition plain (delimiter c : ascii) : bool :=
  negb (Ascii.eqb c NUL || Ascii.eqb c quote || Ascii.eqb c delimiter
        || Ascii.eqb c CR || Ascii.eqb c LF).

(** The fields, each followed by the delimiter but for the last. *)
Fixpoint join (delimiter : ascii) (fields : list (list ascii)) : list ascii :=
  match fields with
  | [] => []
  | [f] => f
  | f :: fs => f ++ delimiter :: join delimiter fs
  end.

(** What a writer of CSV does to a field before it puts it between
    quotes: every quote is doubled. *)
Definition escape (field : list ascii) : list ascii :=
  flat_map (fun c => if Ascii.eqb c quote then [quote; quote] else [c]) field.

Definition no_NUL (s : list ascii) : bool :=
  forallb (fun c => negb (Ascii.eqb c NUL)) s.

(** A delimiter [ReadCSV] gets to see as one: not NUL and not the quote. *)
Definition separates (delimiter : ascii) : bool :=
  negb (Ascii.eqb delimiter NUL || Ascii.eqb delimiter quote).

(** A character at which [ReadCSV] returns outside quotes: NUL, or a
    carriage return or line feed that is not the delimiter. *)
Definition ends_line (delimiter e : ascii) : bool :=
  Ascii.eqb e NUL
  || (negb (Ascii.eqb e delimiter) && (Ascii.eqb e CR || Ascii.eqb e LF)).

Definition comma : ascii := ascii_of_nat 44.

End CSV.
Import CSV.

(** ** Moving one point between clusters *)

(** [perform_move]: the assignment, the centroids and the member counts
    after the call, and whether "Warning! can't handle single-member
    clusters" was printed. *)
Definition perform_move (dim n k : Z) (X : list double)
    (cluster_assignment : list Z) (cluster_centroid : list double)
    (cluster_member_count : cells) (move_point move_target_cluster : Z)
  : option (list Z * list double * cells * bool) :=
  cluster_old <- load cluster_assignment move_point ;;
  let cluster_new := move_target_cluster in
  cluster_assignment <- store cluster_assignment move_point cluster_new ;;
  c <- load_init cluster_member_count cluster_old ;;
  cluster_member_count <- store cluster_member_count cluster_old (Some (c - 1)) ;;
  c <- load_init cluster_member_count cluster_new ;;
  cluster_member_count <- store cluster_member_count cluster_new (Some (c + 1)) ;;
  m <- load_init cluster_member_count cluster_old ;;
  let warned := m <=? 1 in
  cluster_centroid <-
    for_lt dim
      (fun ii cc =>
         x <- load X (move_point * dim + ii) ;;
         co <- load cc (cluster_old * dim + ii) ;;
         m_old <- load_init cluster_member_count cluster_old ;;
         cc <- store cc (cluster_old * dim + ii)
                 (PrimFloat.sub co
                    (PrimFloat.div (PrimFloat.sub x co) (double_of_int m_old))) ;;
         x <- load X (move_point * dim + ii) ;;
         cn <- load cc (cluster_new * dim + ii) ;;
         m_new <- load_init cluster_member_count cluster_new ;;
         store cc (cluster_new * dim + ii)
           (PrimFloat.add cn
              (PrimFloat.div (PrimFloat.sub x cn) (double_of_int m_new))))
      cluster_centroid ;;
  Some (cluster_assignment, cluster_centroid, cluster_member_count, warned).

(** ** Predicates for the further properties *)

(** The number of the first [n] points that [cluster_assignment_index]
    puts in the cluster [c]. *)
Definition members (n : Z) (cluster_assignment_index : list Z) (c : Z) : Z :=
  Z.of_nat (count_occ Z.eq_dec (firstn (Z.to_nat n) cluster_assignment_index) c).

(** Every one of the first [n] cells holds a cluster index below [k]. *)
Definition valid_assignment (n k : Z) (a : list Z) : Prop :=
  forall ii, 0 <= ii < n -> exists c, load a ii = Some c /\ 0 <= c < k.

(** The cluster indices [0 .. k-1]. *)
Definition clusters (k : Z) : list Z := map Z.of_nat (seq 0 (Z.to_nat k)).

(** The table [out] holds, for each of the [n] points and each of the [k]
    centroids, their squared distance. *)
Definition distance_table (dim k : Z) (X centroid : list double) (n : Z)
    (out : list double) : Prop :=
  forall ii jj, 0 <= ii < n -> 0 <= jj < k ->
    exists d, euclid_distance dim X (ii * dim) centroid (jj * dim) = Some d
              /\ load out (ii * k + jj) = Some d.

(** A double that is not below zero: a zero, a positive number, plus
    infinity, or NaN. *)
Definition not_negative (x : spec_float) : bool :=
  match x with
  | S754_zero _ => true
  | S754_infinity s => negb s
  | S754_nan => true
  | S754_finite s _ _ => negb s
  end.

(** What the centroid update adds up in the cell of cluster [c] and
    coordinate [jj]: starting from the value [old] the cell holds, the
    coordinate of every one of the first [n] points assigned to [c], in
    the order of the points. *)
Definition accumulated (dim : Z) (X : list double) (cai : list Z)
    (n c jj : Z) (old : double) : option double :=
  for_lt n
    (fun ii acc =>
       a <- load cai ii ;;
       if a =? c
       then x <- load X (ii * dim + jj) ;; Some (PrimFloat.add acc x)
       else Some acc)
    old.

(** The member counts [cmc] are those of the assignment [a]. *)
Definition counts_agree (n k : Z) (a : list Z) (cmc : cells) : Prop :=
  forall c, 0 <= c < k -> load_init cmc c = Some (members n a c).

(** * Properties *)

Ltac split_matches H :=
  repeat match type of H with
         | context [match ?e with _ => _ end] =>
             destruct e eqn:?; try discriminate H
         end.

(** ** Loops *)

Section Loops.
Context {S : Type} (P : Z -> S -> Prop) (body : Z -> S -> option S).

Lemma for_from_inv :
  forall count i s s',
    P i s ->
    (forall j t t', i <= j < i + Z.of_nat count ->
                    P j t -> body j t = Some t' -> P (j + 1) t') ->
    for_from count i body s = Some s' ->
    P (i + Z.of_nat count) s'.
Proof.
  induction count as [|count IH]; intros i s s' Hi Hstep H.
  - cbn in H. inversion H; subst. now rewrite Z.add_0_r.
  - cbn [for_from] in H. destruct (body i s) as [t|] eqn:B; [ | discriminate].
    rewrite Nat2Z.inj_succ.
    replace (i + Z.succ (Z.of_nat count)) with (i + 1 + Z.of_nat count) by lia.
    apply (IH (i + 1) t s'); [ | | exact H].
    + apply (Hstep i s t); [lia | exact Hi | exact B].
    + intros j u u' Hj. apply Hstep. lia.
Qed.

Lemma for_lt_inv :
  forall n s s',
    P 0 s ->
    (forall j t t', 0 <= j < n -> P j t -> body j t = Some t' -> P (j + 1) t') ->
    for_lt n body s = Some s' ->
    P (Z.max 0 n) s'.
Proof.
  intros n s s' H0 Hstep H. unfold for_lt in H.
  replace (Z.max 0 n) with (0 + Z.of_nat (Z.to_nat n)) by lia.
  apply (for_from_inv _ _ _ _ H0); [ | exact H].
  intros j t t' Hj. apply Hstep. lia.
Qed.

Lemma for_from_fixed :
  forall count i s,
    (forall j, i <= j < i + Z.of_nat count -> body j s = Some s) ->
    for_from count i body s = Some s.
Proof.
  induction count as [|count IH]; intros i s H; cbn [for_from].
  - reflexivity.
  - rewrite (H i) by lia. apply IH. intros j Hj. apply H. lia.
Qed.

End Loops.

(** ** Loads and stores *)

Lemma nth_error_update_same {A : Type} (v : A) :
  forall a i, (i < length a)%nat -> nth_error (update a i v) i = Some v.
Proof.
  induction a as [|h t IH]; intros [|i] H; cbn in *; try lia.
  - reflexivity.
  - apply IH. lia.
Qed.

Lemma nth_error_update_other {A : Type} (v : A) :
  forall a i j, i <> j -> nth_error (update a i v) j = nth_error a j.
Proof.
  induction a as [|h t IH]; intros [|i] [|j] H; cbn; try reflexivity;
    try congruence.
  apply IH. congruence.
Qed.

Lemma load_store_same {A : Type} (a a' : list A) i v :
  store a i v = Some a' -> load a' i = Some v.
Proof.
  unfold store, load. intros H.
  destruct ((0 <=? i) && (i <? Z.of_nat (length a))) eqn:E; [ | discriminate].
  injection H as <-. apply andb_true_iff in E. destruct E as [E1 E2].
  apply Z.leb_le in E1. apply Z.ltb_lt in E2.
  destruct (i <? 0) eqn:N; [apply Z.ltb_lt in N; lia | ].
  apply nth_error_update_same. lia.
Qed.

Lemma load_store_other {A : Type} (a a' : list A) i j v :
  store a i v = Some a' -> j <> i -> load a' j = load a j.
Proof.
  unfold store, load. intros H Hne.
  destruct ((0 <=? i) && (i <? Z.of_nat (length a))) eqn:E; [ | discriminate].
  injection H as <-. apply andb_true_iff in E. destruct E as [E1 E2].
  apply Z.leb_le in E1. apply Z.ltb_lt in E2.
  destruct (j <? 0) eqn:N; [reflexivity | apply Z.ltb_ge in N].
  apply nth_error_update_other. lia.
Qed.

(** ** The order of doubles

    [PrimFloat.ltb] and [PrimFloat.leb] through their specification on
    [spec_float]: a comparison with NaN is false, the rest is a strict
    order. *)

Ltac sf_order :=
  unfold SFleb, SFltb, SFcompare;
  repeat match goal with
         | x : spec_float |- _ => destruct x as [[]|[]| |[] ? ?]
         end;
  cbn; try discriminate; try reflexivity; intros;
  repeat match goal with
         | H : context [(?a ?= ?b)%Z] |- _ =>
             destruct (Z.compare_spec a b); subst; cbn in H; try discriminate H
         | |- context [(?a ?= ?b)%Z] =>
             destruct (Z.compare_spec a b); subst; cbn; try lia
         end;
  repeat match goal with
         | H : context [PosDef.Pos.compare_cont Eq ?a ?b] |- _ =>
             change (PosDef.Pos.compare_cont Eq a b) with (Pos.compare a b) in H;
             destruct (Pos.compare_spec a b); subst; cbn in H; try discriminate H
         | |- context [PosDef.Pos.compare_cont Eq ?a ?b] =>
             change (PosDef.Pos.compare_cont Eq a b) with (Pos.compare a b);
             destruct (Pos.compare_spec a b); subst; cbn; try lia
         end;
  try reflexivity; try discriminate; try lia.

Lemma SFltb_trans x y z : SFltb x y = true -> SFltb y z = true -> SFltb x z = true.
Proof. sf_order. Qed.
Lemma SFleb_ltb_trans x y z : SFleb x y = true -> SFltb y z = true -> SFltb x z = true.
Proof. sf_order. Qed.
Lemma SFltb_irrefl x : SFltb x x = false.
Proof. sf_order. Qed.
Lemma SFltb_leb x y : SFltb x y = true -> SFleb x y = true.
Proof. sf_order. Qed.

Lemma double_ltb_trans x y z :
  PrimFloat.ltb x y = true -> PrimFloat.ltb y z = true -> PrimFloat.ltb x z = true.
Proof. rewrite !ltb_spec. apply SFltb_trans. Qed.
Lemma double_leb_ltb_trans x y z :
  PrimFloat.leb x y = true -> PrimFloat.ltb y z = true -> PrimFloat.ltb x z = true.
Proof. rewrite leb_spec, !ltb_spec. apply SFleb_ltb_trans. Qed.
Lemma double_ltb_irrefl x : PrimFloat.ltb x x = false.
Proof. rewrite ltb_spec. apply SFltb_irrefl. Qed.
Lemma double_ltb_leb x y : PrimFloat.ltb x y = true -> PrimFloat.leb x y = true.
Proof. rewrite leb_spec, ltb_spec. apply SFltb_leb. Qed.

Lemma not_true_false b : (b = true -> False) -> b = false.
Proof. destruct b; intuition congruence. Qed.

(** ** What the loops over the assignment arrays store *)

Lemma choose_cluster_nearest k d ii best closest :
  0 <= k ->
  choose_cluster k d ii = Some (best, closest) ->
  nearest_among k d ii k best closest.
Proof.
  intros Hk H. unfold choose_cluster in H.
  apply (for_lt_inv (fun j bc => nearest_among k d ii j (fst bc) (snd bc)))
    in H; [now rewrite Z.max_r in H | | ].
  - left. cbn. repeat split. intros; lia.
  - clear H. intros j [b c] [b' c'] Hj Inv Hbody. cbn [fst snd] in *.
    destruct (load d (ii * k + j)) as [cur|] eqn:L; [ | discriminate].
    destruct (PrimFloat.ltb cur c) eqn:Lt; injection Hbody as Eb Ec;
      subst b' c'.
    + (* the candidate is taken *)
      right. destruct Inv as [(-> & -> & None_below) | (Hb & Lb & Below & Min & First)].
      * repeat split; try lia; try assumption.
        -- intros jj x Hjj Lx. destruct (Z.eq_dec jj j) as [->|Hne].
           ++ rewrite L in Lx. injection Lx as <-. apply double_ltb_irrefl.
           ++ apply not_true_false. intros T.
              pose proof (None_below jj x ltac:(lia) Lx) as F.
              rewrite (double_ltb_trans _ _ _ T Lt) in F. discriminate.
        -- intros jj x Hjj Lx. apply not_true_false. intros T.
           pose proof (None_below jj x ltac:(lia) Lx) as F.
           rewrite (double_leb_ltb_trans _ _ _ T Lt) in F. discriminate.
      * repeat split; try lia; try assumption.
        -- exact (double_ltb_trans _ _ _ Lt Below).
        -- intros jj x Hjj Lx. destruct (Z.eq_dec jj j) as [->|Hne].
           ++ rewrite L in Lx. injection Lx as <-. apply double_ltb_irrefl.
           ++ apply not_true_false. intros T.
              pose proof (Min jj x ltac:(lia) Lx) as F.
              rewrite (double_ltb_trans _ _ _ T Lt) in F. discriminate.
        -- intros jj x Hjj Lx. apply not_true_false. intros T.
           pose proof (Min jj x ltac:(lia) Lx) as F.
           rewrite (double_leb_ltb_trans _ _ _ T Lt) in F. discriminate.
    + (* the candidate is passed over *)
      destruct Inv as [(-> & -> & None_below) | (Hb & Lb & Below & Min & First)].
      * left. repeat split. intros jj x Hjj Lx.
        destruct (Z.eq_dec jj j) as [->|Hne].
        -- rewrite L in Lx. injection Lx as <-. exact Lt.
        -- apply (None_below jj x); [lia | exact Lx].
      * right. repeat split; try lia; try assumption.
        intros jj x Hjj Lx. destruct (Z.eq_dec jj j) as [->|Hne].
        -- rewrite L in Lx. injection Lx as <-. exact Lt.
        -- apply (Min jj x); [lia | exact Lx].
Qed.

Lemma choose_all_clusters_stored dim n k X d cai out :
  choose_all_clusters_from_distances dim n k X d cai = Some out ->
  holds_choices k d n out.
Proof.
  intros H. unfold choose_all_clusters_from_distances in H.
  apply (for_lt_inv (fun i o => holds_choices k d i o)) in H.
  - intros ii Hii. apply H. lia.
  - intros ii Hii. lia.
  - clear H. intros j t t' Hj Inv Hbody ii Hii.
    destruct (choose_cluster k d j) as [[b c]|] eqn:C; [ | discriminate].
    destruct (Z.eq_dec ii j) as [->|Hne].
    + exists b, c. split; [exact C | exact (load_store_same _ _ _ _ Hbody)].
    + destruct (Inv ii ltac:(lia)) as (b' & c' & C' & L').
      exists b', c'. split; [exact C' | ].
      now rewrite (load_store_other _ _ _ _ _ Hbody Hne).
Qed.

Lemma copy_assignment_array_cells n src tgt t :
  copy_assignment_array n src tgt = Some t -> same_cells n src t.
Proof.
  intros H. unfold copy_assignment_array in H.
  apply (for_lt_inv (fun i o => same_cells i src o)) in H.
  - intros ii Hii. apply H. lia.
  - intros ii Hii. lia.
  - clear H. intros j u u' Hj Inv Hbody ii Hii.
    destruct (load src j) as [v|] eqn:L; [ | discriminate].
    destruct (Z.eq_dec ii j) as [->|Hne].
    + exists v. split; [exact L | exact (load_store_same _ _ _ _ Hbody)].
    + destruct (Inv ii ltac:(lia)) as (w & L1 & L2).
      exists w. split; [exact L1 | ].
      now rewrite (load_store_other _ _ _ _ _ Hbody Hne).
Qed.

Lemma assignment_change_count_zero n a b :
  assignment_change_count n a b = Some 0 -> same_cells n a b.
Proof.
  intros H. unfold assignment_change_count in H.
  apply (for_lt_inv
           (fun i c => 0 <= c /\ (c = 0 -> same_cells i a b))) in H.
  - intros ii Hii. apply (proj2 H eq_refl). lia.
  - split; [lia | intros _ ii Hii; lia].
  - clear H. intros j c c' Hj [Hc Inv] Hbody.
    destruct (load a j) as [x|] eqn:La; [ | discriminate].
    destruct (load b j) as [y|] eqn:Lb; [ | discriminate].
    destruct (x =? y) eqn:E; injection Hbody as <-.
    + split; [exact Hc | ]. intros C0 ii Hii.
      destruct (Z.eq_dec ii j) as [->|Hne].
      * apply Z.eqb_eq in E. subst y. exists x. now split.
      * apply (Inv C0). lia.
    + split; [lia | ]. intros C0. lia.
Qed.

Lemma same_cells_no_change n a b :
  same_cells n a b -> assignment_change_count n a b = Some 0.
Proof.
  intros H. unfold assignment_change_count, for_lt.
  apply for_from_fixed. intros j Hj.
  destruct (H j ltac:(lia)) as (v & -> & ->). now rewrite Z.eqb_refl.
Qed.

(** ** The main loop is bounded *)

Lemma batch_body_continue dim X n k p s s' :
  batch_body dim X n k p s = Some (Continue, s') ->
  batch_iteration s' = batch_iteration s + 1.
Proof.
  unfold batch_body. intros H. split_matches H.
  inversion H; subst. reflexivity.
Qed.

Lemma batch_body_break dim X n k p s s' :
  batch_body dim X n k p s = Some (Break, s') ->
  batch_iteration s' = batch_iteration s.
Proof.
  unfold batch_body. intros H. split_matches H;
    inversion H; subst; reflexivity.
Qed.

(** From a state with counter [batch_iteration s <= 100], fuel for the
    remaining [100 - batch_iteration s] passes is enough, and no more
    passes than that are made. *)
Lemma batch_loop_bounded dim X n k p :
  forall fuel passes s,
    batch_iteration s <= 100 ->
    100 - batch_iteration s <= Z.of_nat fuel ->
    match batch_loop dim X n k p fuel passes s with
    | Returns (q, s') =>
        Z.of_nat q <= Z.of_nat passes + (100 - batch_iteration s)
    | Undefined => True
    | Diverges => False
    end.
Proof.
  induction fuel as [|fuel IH]; intros passes s Hle Hfuel; cbn [batch_loop].
  - destruct (batch_iteration s <? 100) eqn:E; [apply Z.ltb_lt in E; lia | lia].
  - destruct (batch_iteration s <? 100) eqn:E; [apply Z.ltb_lt in E | lia].
    destruct (batch_body dim X n k p s) as [[[|] s']|] eqn:B; [ | | exact I].
    + lia.
    + apply batch_body_continue in B.
      specialize (IH (S passes) s').
      destruct (batch_loop dim X n k p fuel (S passes) s') as [[q s'']| |];
        [ | exact I | ]; (lapply IH; [clear IH; intros IH | lia]);
        (lapply IH; [clear IH; intros IH | lia]); lia.
Qed.

(** More fuel changes nothing: [batch_loop] with fuel 100 is the loop. *)
Lemma batch_loop_fuel dim X n k p :
  forall fuel extra passes s,
    batch_iteration s <= 100 ->
    100 - batch_iteration s <= Z.of_nat fuel ->
    batch_loop dim X n k p (fuel + extra) passes s
    = batch_loop dim X n k p fuel passes s.
Proof.
  induction fuel as [|fuel IH]; intros extra passes s Hle Hfuel.
  - destruct extra; cbn [batch_loop Nat.add];
      destruct (batch_iteration s <? 100) eqn:E; try reflexivity;
      apply Z.ltb_lt in E; lia.
  - cbn [batch_loop Nat.add]. destruct (batch_iteration s <? 100) eqn:E; [apply Z.ltb_lt in E | reflexivity].
    destruct (batch_body dim X n k p s) as [[[|] s']|] eqn:B; try reflexivity.
    apply batch_body_continue in B. apply IH; lia.
Qed.

(** C5. For every dataset (any [dim], [n], [k] and point values) the main
    loop of [kmeans] comes to an end after at most 100 passes through its
    body: the run is never out of fuel, and the pass count it returns is
    at most 100 (a run that leaves the arrays has ended as well). *)
Theorem kmeans_loop_at_most_100 :
  forall dim X n k cluster_centroid,
    passes_within 100 (kmeans_loop dim X n k cluster_centroid) = true.
Proof.
  intros dim X n k c. unfold kmeans_loop.
  destruct (kmeans_setup dim X n k c) as [[p s]|] eqn:E; [ | reflexivity ].
  assert (B : batch_iteration s = 0).
  { unfold kmeans_setup in E. split_matches E. inversion E; subst. reflexivity. }
  pose proof (batch_loop_bounded dim X n k p 100 0 s) as H.
  rewrite B in H.
  destruct (batch_loop dim X n k p 100 0 s) as [[q s']| |];
    cbn [passes_within].
  - apply Nat.leb_le. lapply H; [intros H1 | lia]. lapply H1; lia.
  - reflexivity.
  - lapply H; [intros H1 | lia]. lapply H1; [tauto | lia].
Qed.

Lemma batch_body_continue_holds_data dim X n k p s s' :
  batch_body dim X n k p s = Some (Continue, s') ->
  holds_choices k X n (cluster_assignment_cur s').
Proof.
  intros H. unfold batch_body in H. split_matches H.
  injection H as <-. cbn.
  match goal with
  | C : choose_all_clusters_from_distances _ _ _ _ _ _ = Some _ |- _ =>
      exact (choose_all_clusters_stored _ _ _ _ _ _ _ C)
  end.
Qed.

Lemma batch_body_second_pass_breaks dim X n k p s fl s' :
  holds_choices k X n (cluster_assignment_cur s) ->
  batch_body dim X n k p s = Some (fl, s') ->
  fl = Break.
Proof.
  intros R H. unfold batch_body in H. split_matches H;
    injection H as <- <-; try reflexivity.
  exfalso.
  repeat match goal with
         | C : choose_all_clusters_from_distances _ _ _ _ _ _ = Some _ |- _ =>
             apply choose_all_clusters_stored in C
         | C : copy_assignment_array _ _ _ = Some _ |- _ =>
             apply copy_assignment_array_cells in C
         end.
  match goal with
  | C : assignment_change_count _ ?a ?b = Some ?z, E : (?z =? 0) = false |- _ =>
      assert (S : same_cells n a b); [ | rewrite (same_cells_no_change _ _ _ S) in C;
                                         injection C as <-; discriminate E]
  end.
  intros ii Hii.
  match goal with
  | C : holds_choices _ _ _ ?o |- exists v, load ?o _ = _ /\ _ =>
      destruct (C ii Hii) as (b & c & Cb & Lb)
  end.
  destruct (R ii Hii) as (b' & c' & Cb' & Lb').
  rewrite Cb in Cb'. injection Cb' as <- <-.
  match goal with
  | C : same_cells _ _ _ |- _ => destruct (C ii Hii) as (v & L1 & L2)
  end.
  rewrite Lb' in L1. injection L1 as <-.
  exists b. now split.
Qed.


(** ** The centroid argument is dead *)

Lemma batch_body_with_caller dim X n k c s :
  batch_body dim X n k Local (with_caller c s)
  = option_map (on_state (with_caller c)) (batch_body dim X n k Local s).
Proof.
  unfold batch_body; simpl.
  repeat match goal with
         | |- context [match ?e with _ => _ end] =>
             lazymatch e with
             | context [match _ with _ => _ end] => fail
             | _ => destruct e; simpl; try reflexivity
             end
         end.
Qed.

Lemma batch_loop_with_caller dim X n k c :
  forall fuel passes s,
    batch_loop dim X n k Local fuel passes (with_caller c s)
    = run_map (on_state (with_caller c))
        (batch_loop dim X n k Local fuel passes s).
Proof.
  induction fuel as [|fuel IH]; intros passes s; simpl.
  - destruct (batch_iteration s <? 100); reflexivity.
  - destruct (batch_iteration s <? 100); [ | reflexivity].
    rewrite batch_body_with_caller.
    destruct (batch_body dim X n k Local s) as [[[|] s']|]; simpl;
      try reflexivity.
    apply IH.
Qed.

Lemma kmeans_setup_with_caller dim X n k c :
  kmeans_setup dim X n k c
  = option_map (on_state (with_caller c)) (kmeans_setup dim X n k []).
Proof.
  unfold kmeans_setup; simpl.
  destruct (all_distances dim n k X [0; 5; 10]%float (malloc (n * k) 0%float))
    as [d|]; [ | reflexivity].
  destruct (choose_all_clusters_from_distances dim n k X d (malloc n 0))
    as [cur|]; [ | reflexivity].
  destruct (copy_assignment_array n cur (malloc n 0)) as [prev|];
    reflexivity.
Qed.

Lemma kmeans_setup_local dim X n k c p s :
  kmeans_setup dim X n k c = Some (p, s) -> p = Local.
Proof.
  unfold kmeans_setup. intros H. split_matches H.
  inversion H; subst. reflexivity.
Qed.

Lemma kmeans_loop_with_caller dim X n k c :
  kmeans_loop dim X n k c
  = run_map (on_state (with_caller c)) (kmeans_loop dim X n k []).
Proof.
  unfold kmeans_loop. rewrite kmeans_setup_with_caller.
  destruct (kmeans_setup dim X n k []) as [[p s]|] eqn:E; [ | reflexivity].
  apply kmeans_setup_local in E. subst p. cbn [option_map on_state fst snd].
  apply batch_loop_with_caller.
Qed.

(** C10. The result of [kmeans] does not depend on the centroid array the
    caller passes: for any two such arrays [c1] and [c2] (all else equal)
    the final assignment is the same, and the caller's centroid array is
    handed back with the contents it came with, since the function points
    [cluster_centroid] at its local [array = {0, 5, 10}] first. *)
Theorem kmeans_ignores_cluster_centroid :
  forall dim X n k c1 c2 cluster_assignment_final,
    run_map snd (kmeans dim X n k c1 cluster_assignment_final)
    = run_map snd (kmeans dim X n k c2 cluster_assignment_final)
    /\ run_map fst (kmeans dim X n k c1 cluster_assignment_final)
       = run_map (fun _ => c1) (kmeans dim X n k c1 cluster_assignment_final).
Proof.
  intros dim X n k c1 c2 final. unfold kmeans.
  rewrite (kmeans_loop_with_caller dim X n k c1),
          (kmeans_loop_with_caller dim X n k c2).
  destruct (kmeans_loop dim X n k []) as [[q s]| |]; simpl;
    try (split; reflexivity).
  destruct (copy_assignment_array n (cluster_assignment_cur s) final);
    simpl; split; reflexivity.
Qed.

(** ** The assignment step *)

(** X1. Where [choose_all_clusters_from_distances] is handed a table of
    distances [d] (as in the setup of [kmeans]), the index it stores for
    the point [ii] is -1 when none of the point's distances is below
    100000, and otherwise the lowest index whose distance is below 100000
    and has no other distance of the point below it. *)
Theorem assignment_nearest_below_threshold :
  forall dim n k X d cai out ii best,
    0 <= k ->
    choose_all_clusters_from_distances dim n k X d cai = Some out ->
    0 <= ii < n ->
    load out ii = Some best ->
    exists closest, nearest_among k d ii k best closest.
Proof.
  intros dim n k X d cai out ii best Hk H Hii L.
  destruct (choose_all_clusters_stored _ _ _ _ _ _ _ H ii Hii)
    as (b & c & C & L').
  rewrite L in L'. injection L' as ->.
  exists c. exact (choose_cluster_nearest _ _ _ _ _ Hk C).
Qed.

Lemma assignment_nearest_below_threshold_witness :
  exists closest, nearest_among 2 [1; 16; 81; 16]%float 1 2 1 closest.
Proof.
  apply (assignment_nearest_below_threshold 1 2 2 X_1_9
           [1; 16; 81; 16]%float [0; 0] [0; 1] 1 1).
  - lia.
  - vm_compute. reflexivity.
  - lia.
  - vm_compute. reflexivity.
Defined.

(** C1. The assignment step does not always pick the nearest centroid.
    (a) [closest_distance] starts at 100000, not at infinity: the single
    point 400 with the single cluster 0 (squared distance 160000 to its
    centroid 0) is given the index -1, and [kmeans] then indexes its
    member counts with -1.  (b) In the main loop the arguments [dist] and
    [X] are swapped, so the data are read as distances: for the points 1
    and 9 and the centroids 1 and 14 of the first pass, the point 9 is at
    squared distance 64 from centroid 0 and 25 from centroid 1, and is
    assigned to cluster 0. *)
Theorem kmeans_assignment_not_nearest :
  all_distances 1 1 1 [400]%float [0; 5; 10]%float [0]%float
    = Some [160000]%float
  /\ choose_all_clusters_from_distances 1 1 1 [400]%float [160000]%float [0]
     = Some [-1]
  /\ kmeans 1 [400]%float 1 1 [] [0] = Undefined
  /\ kmeans_setup 1 X_1_9 2 2 [] = Some (Local, s0_1_9)
  /\ batch_body 1 X_1_9 2 2 Local s0_1_9 = Some (Continue, s1_1_9)
  /\ all_distances 1 2 2 X_1_9 (array (centroids s1_1_9)) (dist s0_1_9)
     = Some [0; 169; 64; 25]%float
  /\ cluster_assignment_cur s1_1_9 = [0; 0]
  /\ choose_all_clusters_from_distances 1 2 2 X_1_9 [0; 169; 64; 25]%float
       [0; 1] = Some [0; 1].
Proof. repeat split; vm_compute; reflexivity. Qed.

(** ** Accepted passes and the rollback *)

Lemma deref_assign m p c : deref (assign m p c) p = c.
Proof. destruct p; reflexivity. Qed.

(** X2. A pass after which the loop goes on has computed, from the
    centroids [c] its centroid update gave, a [totD] that is not above
    the [prev_totD] it started with; that [totD] is the next [prev_totD],
    [c] are the centroids the next pass starts from, and the counter goes
    up by one. *)
Theorem batch_body_accepts_no_increase :
  forall dim X n k p s s',
    batch_body dim X n k p s = Some (Continue, s') ->
    exists c warned totD,
      calc_cluster_centroids dim n k X (cluster_assignment_cur s)
        (deref (centroids s) p) = Some (c, warned)
      /\ calc_total_distance dim n k X c (cluster_assignment_cur s)
         = Some totD
      /\ PrimFloat.ltb (prev_totD s) totD = false
      /\ prev_totD s' = totD
      /\ deref (centroids s') p = c
      /\ batch_iteration s' = batch_iteration s + 1.
Proof.
  intros dim X n k p s s' H. unfold batch_body in H.
  destruct (cluster_diag dim n k X (cluster_assignment_cur s)
              (deref (centroids s) p)); [ | discriminate].
  destruct (calc_cluster_centroids dim n k X (cluster_assignment_cur s)
              (deref (centroids s) p)) as [[c warned]|]; [ | discriminate].
  rewrite deref_assign in H.
  destruct (calc_total_distance dim n k X c (cluster_assignment_cur s))
    as [totD|] eqn:TD; [ | discriminate].
  exists c, warned, totD.
  destruct (PrimFloat.ltb (prev_totD s) totD) eqn:T.
  - split_matches H.
  - split_matches H. injection H as <-. cbn [prev_totD centroids batch_iteration].
    rewrite deref_assign. repeat split. exact TD.
Qed.

Lemma batch_body_accepts_no_increase_witness :
  exists c warned totD,
    calc_cluster_centroids 1 2 2 X_1_9 (cluster_assignment_cur s0_1_9)
      (deref (centroids s0_1_9) Local) = Some (c, warned)
    /\ calc_total_distance 1 2 2 X_1_9 c (cluster_assignment_cur s0_1_9)
       = Some totD
    /\ PrimFloat.ltb (prev_totD s0_1_9) totD = false
    /\ prev_totD s1_1_9 = totD
    /\ deref (centroids s1_1_9) Local = c
    /\ batch_iteration s1_1_9 = batch_iteration s0_1_9 + 1.
Proof.
  apply (batch_body_accepts_no_increase 1 X_1_9 2 2 Local s0_1_9 s1_1_9).
  vm_compute. reflexivity.
Defined.

(** X3. Whenever the loop is left through a [break] (after a rollback, or
    with a change count of 0), the current assignment holds the same
    [n] values as the previous one. *)
Theorem batch_body_break_settled :
  forall dim X n k p s s',
    batch_body dim X n k p s = Some (Break, s') ->
    same_cells n (cluster_assignment_prev s') (cluster_assignment_cur s').
Proof.
  intros dim X n k p s s' H. unfold batch_body in H. split_matches H;
    injection H as <-; cbn.
  - match goal with
    | C : copy_assignment_array _ _ _ = Some _ |- _ =>
        exact (copy_assignment_array_cells _ _ _ _ C)
    end.
  - match goal with
    | C : assignment_change_count _ _ _ = Some ?z, E : (?z =? 0) = true |- _ =>
        apply Z.eqb_eq in E; subst z;
        apply assignment_change_count_zero in C
    end.
    intros ii Hii.
    match goal with
    | C : same_cells _ _ _ |- _ => destruct (C ii Hii) as (v & L1 & L2)
    end.
    exists v. now split.
Qed.

Lemma batch_body_break_settled_witness :
  same_cells 2 (cluster_assignment_prev s2_1_9) (cluster_assignment_cur s2_1_9).
Proof.
  apply (batch_body_break_settled 1 X_1_9 2 2 Local s1_1_9 s2_1_9).
  vm_compute. reflexivity.
Defined.

(** C2. When [totD] goes up, the assignment is rolled back but the
    centroids are not.  For the points 1 and 9: the first pass leaves the
    centroids 1 and 14 with [totD = 25]; the second finds [totD = 32.5],
    restores the assignment [0; 1] and stops, with the centroids 6.5 and
    infinity. *)
Theorem kmeans_rollback_keeps_new_centroids :
  batch_body 1 X_1_9 2 2 Local s0_1_9 = Some (Continue, s1_1_9)
  /\ array (centroids s1_1_9) = [1; 14; 0]%float
  /\ prev_totD s1_1_9 = 25%float
  /\ calc_total_distance 1 2 2 X_1_9 [5.5; infinity; 0]%float
       (cluster_assignment_cur s1_1_9) = Some 32.5%float
  /\ batch_body 1 X_1_9 2 2 Local s1_1_9 = Some (Break, s2_1_9)
  /\ cluster_assignment_cur s2_1_9 = cluster_assignment_prev s1_1_9
  /\ array (centroids s2_1_9) = [6.5; infinity; 0]%float
  /\ kmeans_loop 1 X_1_9 2 2 [] = Returns (2%nat, s2_1_9).
Proof. repeat split; vm_compute; reflexivity. Qed.

(** ** The centroid update *)

(** C3. The centroid sums are never reset: a centroid comes out as its
    old value plus the sum of its members, over their number.  With the
    centroids 0 and 5 and the points 1 (cluster 0) and 9 (cluster 1), the
    centroid of cluster 1 is (5 + 9) / 1 = 14, not the mean 9; the cell
    that is zeroed is [new_cluster_centroid[dim*k]]. *)
Theorem calc_cluster_centroids_not_mean :
  calc_cluster_centroids 1 2 2 [1; 9]%float [0; 1] [0; 5; 10]%float
  = Some ([1; 14; 0]%float, []).
Proof. vm_compute. reflexivity. Qed.

(** C4. An empty cluster is warned about and then divided by all the
    same.  For the single point 1 and two clusters, the setup of [kmeans]
    puts the point in cluster 0; in the centroid update cluster 1 has the
    member count 0, the warning names it, and its centroid becomes
    5 / 0, which is infinity. *)
Theorem calc_cluster_centroids_divides_by_zero :
  kmeans_setup 1 [1]%float 1 2 []
    = Some (Local,
            {| dist := [1; 16]%float;
               cluster_assignment_cur := [0];
               cluster_assignment_prev := [0];
               centroids :=
                 {| caller_centroid := []; array := [0; 5; 10]%float |};
               prev_totD := 10000%float;
               batch_iteration := 0 |})
  /\ get_cluster_member_count 1 2 [0] [None; None; None]
     = Some [Some 1; Some 0; None]
  /\ calc_cluster_centroids 1 1 2 [1]%float [0] [0; 5; 10]%float
     = Some ([1; infinity; 0]%float, [1])
  /\ PrimFloat.div 5%float (double_of_int 0) = infinity.
Proof. repeat split; vm_compute; reflexivity. Qed.

(** ** The EM driver's stopping rule *)

Section EMDriver.

Variables sigma_t mu_t Pk_t theta_array : Type.
Variable estep : sigma_t -> mu_t -> Pk_t -> EM.e_output_struct theta_array.
Variable mstep : theta_array -> EM.m_output_struct sigma_t mu_t Pk_t.
Variables (initial_sigma : sigma_t) (kmeans_mus : mu_t) (initial_Pk : Pk_t).
Variable epsilon : double.


End EMDriver.





(** ** The size contract of [dot] *)

Lemma indices_length n : length (Matrix.indices n) = Z.to_nat n.
Proof. unfold Matrix.indices. now rewrite length_map, length_seq. Qed.

(** C9. [dot A B] fails with [SizeError], and hands both operands back as
    they were, whenever the column count of [A] differs from the row
    count of [B]; when they agree it gives a matrix with the rows of [A]
    and the columns of [B] (its [columns] are [colCount B] lists of
    [rowCount A] entries), the operands again untouched. *)
Theorem dot_size_contract :
  forall A B : Matrix.t,
    (Matrix.colCount A <> Matrix.rowCount B ->
     Matrix.dot A B = (A, B, inl Matrix.SizeError))
    /\ (Matrix.colCount A = Matrix.rowCount B ->
        exists C,
          Matrix.dot A B = (A, B, inr C)
          /\ Matrix.rowCount C = Matrix.rowCount A
          /\ Matrix.colCount C = Matrix.colCount B
          /\ length (Matrix.columns C) = Z.to_nat (Matrix.colCount B)
          /\ Forall (fun col => length col = Z.to_nat (Matrix.rowCount A))
               (Matrix.columns C)).
Proof.
  intros A B. unfold Matrix.colCount, Matrix.rowCount, Matrix.dot. split.
  - intros H. apply Z.eqb_neq in H. now rewrite H.
  - intros H. apply Z.eqb_eq in H. rewrite H.
    exists (Matrix.product A B). repeat split.
    + cbn. now rewrite length_map, indices_length.
    + cbn. apply Forall_forall. intros col Hin.
      apply in_map_iff in Hin. destruct Hin as [j [<- _]].
      now rewrite length_map, indices_length.
Qed.

Lemma dot_size_contract_witness :
  Matrix.dot Matrix.A_3x2 Matrix.B_3x4
    = (Matrix.A_3x2, Matrix.B_3x4, inl Matrix.SizeError)
  /\ exists C,
       Matrix.dot Matrix.A_3x2 Matrix.B_2x4
         = (Matrix.A_3x2, Matrix.B_2x4, inr C)
       /\ Matrix.rowCount C = Matrix.rowCount Matrix.A_3x2
       /\ Matrix.colCount C = Matrix.colCount Matrix.B_2x4
       /\ length (Matrix.columns C) = Z.to_nat (Matrix.colCount Matrix.B_2x4)
       /\ Forall
            (fun col => length col = Z.to_nat (Matrix.rowCount Matrix.A_3x2))
            (Matrix.columns C).
Proof.
  split.
  - apply (proj1 (dot_size_contract Matrix.A_3x2 Matrix.B_3x4)).
    vm_compute. lia.
  - apply (proj2 (dot_size_contract Matrix.A_3x2 Matrix.B_2x4)).
    vm_compute. reflexivity.
Defined.

(** * Further properties *)

(** ** What [ReadCSV] returns *)
Lemma ReadCSV_loop_length d :
  forall m line inquotes cur rec,
    (length line <= m)%nat ->
    (length rec + 1 <= length (ReadCSV_loop d line inquotes cur rec))%nat.
Proof.
  induction m as [|m IH]; intros line inq cur rec Hm.
  - destruct line; [ | cbn in Hm; lia]. cbn. rewrite length_app. cbn. lia.
  - destruct line as [|c rest]; cbn [ReadCSV_loop].
    + rewrite length_app. cbn. lia.
    + cbn in Hm.
      repeat match goal with
             | |- context [if ?b then _ else _] => destruct b
             | |- context [match ?l with [] => _ | _ :: _ => _ end] =>
                 destruct l; cbn in Hm
             end;
        try (rewrite length_app; cbn; lia);
        try (apply IH; cbn; lia);
        try (etransitivity; [ | apply IH; cbn; lia]; rewrite ?length_app; cbn; lia).
Qed.

(** X5. [ReadCSV] never leaves the record empty: whatever the line, there
    is a field [row[0]] for [ParseCSV] to read. *)
Theorem ReadCSV_never_empty :
  forall record line delimiter,
    (1 <= length (ReadCSV record line delimiter))%nat.
Proof.
  intros record line d. unfold ReadCSV.
  apply (ReadCSV_loop_length d (length line) line false [] []). lia.
Qed.

Lemma plain_inv d c :
  plain d c = true ->
  Ascii.eqb c NUL = false /\ Ascii.eqb c quote = false
  /\ Ascii.eqb c d = false /\ Ascii.eqb c CR = false /\ Ascii.eqb c LF = false.
Proof.
  unfold plain. intros H. apply negb_true_iff in H.
  repeat (apply orb_false_iff in H; destruct H as [H ?]). auto.
Qed.

Lemma ReadCSV_loop_plain d f :
  forall rest cur rec,
    forallb (plain d) f = true ->
    ReadCSV_loop d (f ++ rest) false cur rec
    = ReadCSV_loop d rest false (cur ++ f) rec.
Proof.
  induction f as [|c f IH]; intros rest cur rec H.
  - cbn. now rewrite app_nil_r.
  - cbn in H. apply andb_true_iff in H. destruct H as [Hc Hf].
    destruct (plain_inv _ _ Hc) as (N & Q & D & R & L).
    cbn [app ReadCSV_loop]. rewrite N, Q, D, R, L.
    rewrite andb_false_r. cbn [negb andb orb].
    rewrite (IH rest (cur ++ [c]) rec Hf). now rewrite <- app_assoc.
Qed.

Lemma ReadCSV_loop_delimiter d rest cur rec :
  separates d = true ->
  ReadCSV_loop d (d :: rest) false cur rec
  = ReadCSV_loop d rest false [quote] (rec ++ [cur]).
Proof.
  unfold separates. intros H. apply negb_true_iff in H.
  apply orb_false_iff in H. destruct H as [N Q].
  cbn [ReadCSV_loop]. rewrite N, Q, Ascii.eqb_refl.
  now rewrite andb_false_r.
Qed.

(** The record and the current field after the fields [f :: fs] were read
    with [cur] already in the current field. *)
Lemma ReadCSV_loop_fields d :
  forall fs f rest cur rec,
    separates d = true ->
    forallb (forallb (plain d)) (f :: fs) = true ->
    ReadCSV_loop d (join d (f :: fs) ++ rest) false cur rec
    = ReadCSV_loop d rest false
        (last ((cur ++ f) :: map (cons quote) fs) [])
        (rec ++ removelast ((cur ++ f) :: map (cons quote) fs)).
Proof.
  induction fs as [|g fs IH]; intros f rest cur rec Hd H.
  - cbn in H. rewrite andb_true_r in H. cbn [join map last removelast].
    rewrite (ReadCSV_loop_plain d f rest cur rec H). now rewrite app_nil_r.
  - cbn [forallb] in H. apply andb_true_iff in H. destruct H as [Hf Hrest].
    change (join d (f :: g :: fs)) with (f ++ d :: join d (g :: fs)).
    rewrite <- app_assoc. rewrite (ReadCSV_loop_plain d f _ cur rec Hf).
    cbn [app]. rewrite (ReadCSV_loop_delimiter d _ _ _ Hd).
    rewrite (IH g rest [quote] (rec ++ [cur ++ f]) Hd Hrest).
    cbn [map last removelast app]. rewrite <- app_assoc. reflexivity.
Qed.

Lemma ReadCSV_loop_end d e tail cur rec :
  ends_line d e = true ->
  ReadCSV_loop d (e :: tail) false cur rec = rec ++ [cur].
Proof.
  unfold ends_line. intros H. cbn [ReadCSV_loop].
  destruct (Ascii.eqb e NUL) eqn:N; [reflexivity | ].
  cbn [orb] in H. apply andb_true_iff in H. destruct H as [D E].
  apply negb_true_iff in D. rewrite D, E.
  assert (Q : Ascii.eqb e quote = false).
  { apply orb_true_iff in E.
    destruct E as [E|E]; apply Ascii.eqb_eq in E; subst e; reflexivity. }
  rewrite Q, andb_false_r. reflexivity.
Qed.

(** X6. A line of fields without quotes, separated by the delimiter, is
    split at the delimiters; the first field comes out as it is, and
    every later field comes out with a quote character in front of it
    (where the source restarts the field, it assigns to [curstring]
    the string of one quote character). *)
Theorem ReadCSV_plain_fields :
  forall record delimiter f fs,
    separates delimiter = true ->
    forallb (forallb (plain delimiter)) (f :: fs) = true ->
    ReadCSV record (join delimiter (f :: fs)) delimiter
    = f :: map (cons quote) fs.
Proof.
  intros record d f fs Hd H. unfold ReadCSV.
  rewrite <- (app_nil_r (join d (f :: fs))).
  rewrite (ReadCSV_loop_fields d fs f [] [] [] Hd H).
  cbn [ReadCSV_loop app].
  symmetry. apply app_removelast_last. discriminate.
Qed.

Lemma ReadCSV_plain_fields_witness :
  ReadCSV [] (join comma [[ascii_of_nat 49]; [ascii_of_nat 50]]) comma
  = [[ascii_of_nat 49]; [quote; ascii_of_nat 50]].
Proof.
  apply (ReadCSV_plain_fields [] comma [ascii_of_nat 49] [[ascii_of_nat 50]]);
    reflexivity.
Defined.

(** X7. Outside quotes, reading stops at the first NUL, carriage return
    or line feed: what follows it on the line is never looked at. *)
Theorem ReadCSV_stops_at_line_end :
  forall record delimiter f fs e tail,
    separates delimiter = true ->
    forallb (forallb (plain delimiter)) (f :: fs) = true ->
    ends_line delimiter e = true ->
    ReadCSV record (join delimiter (f :: fs) ++ e :: tail) delimiter
    = f :: map (cons quote) fs.
Proof.
  intros record d f fs e tail Hd H He. unfold ReadCSV.
  rewrite (ReadCSV_loop_fields d fs f (e :: tail) [] [] Hd H).
  rewrite (ReadCSV_loop_end d e tail _ _ He). cbn [app].
  symmetry. apply app_removelast_last. discriminate.
Qed.

Lemma ReadCSV_stops_at_line_end_witness :
  ReadCSV []
    (join comma [[ascii_of_nat 49]; [ascii_of_nat 50]]
     ++ LF :: [ascii_of_nat 51; comma; ascii_of_nat 52]) comma
  = [[ascii_of_nat 49]; [quote; ascii_of_nat 50]].
Proof.
  apply (ReadCSV_stops_at_line_end [] comma [ascii_of_nat 49]
           [[ascii_of_nat 50]] LF [ascii_of_nat 51; comma; ascii_of_nat 52]);
    reflexivity.
Defined.

Lemma ReadCSV_loop_quoted d :
  forall body cur rec,
    no_NUL body = true ->
    ReadCSV_loop d (escape body ++ [quote]) true cur rec
    = rec ++ [cur ++ body].
Proof.
  induction body as [|c body IH]; intros cur rec H.
  - cbn. now rewrite app_nil_r.
  - unfold no_NUL in *. cbn [forallb] in H.
    apply andb_true_iff in H. destruct H as [Hc Hb].
    apply negb_true_iff in Hc.
    unfold escape. cbn [flat_map]. fold (escape body).
    destruct (Ascii.eqb c quote) eqn:Q.
    + apply Ascii.eqb_eq in Q. subst c.
      cbn [app ReadCSV_loop]. rewrite Hc, Ascii.eqb_refl. cbn [negb andb].
      rewrite (IH (cur ++ [quote]) rec Hb). now rewrite <- app_assoc.
    + cbn [app ReadCSV_loop]. rewrite Hc, Q.
      rewrite !andb_false_r. cbn [negb andb].
      rewrite (IH (cur ++ [c]) rec Hb). now rewrite <- app_assoc.
Qed.

(** X8. Round trip of a quoted field: a field without NUL, written between
    quotes with its own quotes doubled, is read back as the one field it
    was, delimiters and line breaks included. *)
Theorem ReadCSV_quoted_field :
  forall record delimiter field,
    no_NUL field = true ->
    ReadCSV record (quote :: escape field ++ [quote]) delimiter = [field].
Proof.
  intros record d field H. unfold ReadCSV.
  change (ReadCSV_loop d (escape field ++ [quote]) true [] [] = [field]).
  now rewrite (ReadCSV_loop_quoted d field [] [] H).
Qed.

Lemma ReadCSV_quoted_field_witness :
  ReadCSV [] (quote :: escape [ascii_of_nat 49; comma; quote; LF] ++ [quote])
    comma
  = [[ascii_of_nat 49; comma; quote; LF]].
Proof.
  apply (ReadCSV_quoted_field [] comma [ascii_of_nat 49; comma; quote; LF]).
  reflexivity.
Defined.
(** ** Counting the members of the clusters *)

Lemma load_nth_error {A : Type} (a : list A) i :
  0 <= i -> load a i = nth_error a (Z.to_nat i).
Proof.
  intros H. unfold load. destruct (i <? 0) eqn:E; [ | reflexivity].
  apply Z.ltb_lt in E. lia.
Qed.

Lemma firstn_succ_nth {A : Type} :
  forall (l : list A) i x,
    nth_error l i = Some x -> firstn (S i) l = firstn i l ++ [x].
Proof.
  induction l as [|h t IH]; intros [|i] x H; cbn in *; try discriminate.
  - now injection H as ->.
  - now rewrite (IH i x H).
Qed.

Lemma members_step n cai c a :
  0 <= n ->
  load cai n = Some a ->
  members (n + 1) cai c = members n cai c + (if a =? c then 1 else 0).
Proof.
  intros Hn L. unfold members. rewrite (load_nth_error _ _ Hn) in L.
  replace (Z.to_nat (n + 1)) with (S (Z.to_nat n)) by lia.
  rewrite (firstn_succ_nth _ _ _ L), count_occ_app. cbn [count_occ].
  destruct (Z.eq_dec a c) as [->|Hne].
  - rewrite Z.eqb_refl. lia.
  - apply Z.eqb_neq in Hne. rewrite Hne. lia.
Qed.

Lemma members_neg n cai c : n <= 0 -> members n cai c = 0.
Proof.
  intros H. unfold members. replace (Z.to_nat n) with 0%nat by lia. reflexivity.
Qed.

Lemma load_init_store_same (a a' : cells) i v :
  store a i (Some v) = Some a' -> load_init a' i = Some v.
Proof. intros H. unfold load_init. now rewrite (load_store_same _ _ _ _ H). Qed.

Lemma load_init_store_other (a a' : cells) i j v :
  store a i v = Some a' -> j <> i -> load_init a' j = load_init a j.
Proof. intros H Hne. unfold load_init. now rewrite (load_store_other _ _ _ _ _ H Hne). Qed.

(** The first loop of [get_cluster_member_count]. *)
Lemma zero_counts k (cmc out : cells) :
  for_lt k (fun ii cmc => store cmc ii (Some 0)) cmc = Some out ->
  (forall c, 0 <= c < k -> load_init out c = Some 0)
  /\ (forall c, ~ 0 <= c < k -> load_init out c = load_init cmc c).
Proof.
  intros H.
  apply (for_lt_inv
           (fun i (o : cells) =>
              (forall c, 0 <= c < i -> load_init o c = Some 0)
              /\ (forall c, ~ 0 <= c < i -> load_init o c = load_init cmc c)))
    in H.
  - destruct H as [H1 H2]. split; intros c Hc; [apply H1 | apply H2]; lia.
  - split; [intros c Hc; lia | reflexivity].
  - clear H. intros j t t' Hj [I1 I2] Hbody. split; intros c Hc.
    + destruct (Z.eq_dec c j) as [->|Hne].
      * exact (load_init_store_same _ _ _ _ Hbody).
      * rewrite (load_init_store_other _ _ _ _ _ Hbody Hne). apply I1. lia.
    + assert (Hne : c <> j) by lia.
      rewrite (load_init_store_other _ _ _ _ _ Hbody Hne). apply I2. lia.
Qed.

(** The second loop of [get_cluster_member_count], from counts [cmc0]. *)
Lemma count_members n k cai (cmc0 out : cells) :
  (forall c, 0 <= c < k -> load_init cmc0 c = Some 0) ->
  for_lt n
    (fun ii cmc =>
       a <- load cai ii ;;
       c <- load_init cmc a ;;
       store cmc a (Some (c + 1))) cmc0 = Some out ->
  (forall c, 0 <= c < k -> load_init out c = Some (members n cai c))
  /\ (forall ii, 0 <= ii < n ->
        exists a, load cai ii = Some a
                  /\ (0 <= a < k \/ load_init cmc0 a <> None)).
Proof.
  intros H0 H.
  apply (for_lt_inv
           (fun i (o : cells) =>
              (forall c, 0 <= c < k -> load_init o c = Some (members i cai c))
              /\ (forall c, ~ 0 <= c < k -> load_init cmc0 c = None ->
                            load_init o c = None)
              /\ (forall ii, 0 <= ii < i ->
                    exists a, load cai ii = Some a
                              /\ (0 <= a < k \/ load_init cmc0 a <> None))))
    in H.
  - destruct H as (H1 & _ & H3). split.
    + intros c Hc. rewrite (H1 c Hc). f_equal.
      destruct (Z.max_spec 0 n) as [[? ->]|[? ->]]; [reflexivity | ].
      now rewrite (members_neg n) by lia.
    + intros ii Hii. apply H3. lia.
  - split; [ | split].
    + intros c Hc. rewrite (H0 c Hc). now rewrite members_neg by lia.
    + auto.
    + intros ii Hii. lia.
  - clear H. intros j t t' Hj (I1 & I2 & I3) Hbody.
    destruct (load cai j) as [a|] eqn:La; [ | discriminate].
    destruct (load_init t a) as [v|] eqn:Lv; [ | discriminate].
    split; [ | split].
    + intros c Hc. rewrite (members_step j cai c a ltac:(lia) La).
      destruct (Z.eq_dec c a) as [->|Hne].
      * rewrite (load_init_store_same _ _ _ _ Hbody), Z.eqb_refl.
        rewrite (I1 a Hc) in Lv. injection Lv as <-. reflexivity.
      * rewrite (load_init_store_other _ _ _ _ _ Hbody Hne), (I1 c Hc).
        assert (E : (a =? c) = false) by (apply Z.eqb_neq; congruence).
        rewrite E. f_equal. lia.
    + intros c Hc Hn. destruct (Z.eq_dec c a) as [->|Hne].
      * rewrite (I2 a Hc Hn) in Lv. discriminate.
      * rewrite (load_init_store_other _ _ _ _ _ Hbody Hne). now apply I2.
    + intros ii Hii. destruct (Z.eq_dec ii j) as [->|Hne].
      * exists a. split; [exact La | ].
        destruct (Z_lt_dec a 0) as [Hlt|Hge];
          [ | destruct (Z_lt_dec a k) as [Hlt'|Hge']; [left; lia | ] ].
        -- right. intros Hn. rewrite (I2 a ltac:(lia) Hn) in Lv. discriminate.
        -- right. intros Hn. rewrite (I2 a ltac:(lia) Hn) in Lv. discriminate.
      * apply I3. lia.
Qed.

Lemma member_count_cells :
  forall n k cai cmc out c,
    get_cluster_member_count n k cai cmc = Some out ->
    0 <= c < k ->
    load_init out c = Some (members n cai c).
Proof.
  intros n k cai cmc out c H Hc. unfold get_cluster_member_count in H.
  destruct (for_lt k (fun ii cmc => store cmc ii (Some 0)) cmc)
    as [cmc1|] eqn:Z1; [ | discriminate].
  apply zero_counts in Z1. destruct Z1 as [Z1 _].
  exact (proj1 (count_members n k cai cmc1 out Z1 H) c Hc).
Qed.

Lemma member_count_defined :
  forall n k cai m out,
    get_cluster_member_count n k cai (malloc m None) = Some out ->
    valid_assignment n k cai.
Proof.
  intros n k cai m out H. unfold get_cluster_member_count in H.
  destruct (for_lt k (fun ii cmc => store cmc ii (Some 0)) (malloc m None))
    as [cmc1|] eqn:Z1; [ | discriminate].
  apply zero_counts in Z1. destruct Z1 as [Z1 Z2].
  destruct (count_members n k cai cmc1 out Z1 H) as [_ V].
  intros ii Hii. destruct (V ii Hii) as (a & La & Ha).
  exists a. split; [exact La | ].
  destruct Ha as [Ha|Ha]; [exact Ha | ].
  destruct (Z_lt_dec a 0) as [Hlt|Hge];
    [ | destruct (Z_lt_dec a k) as [Hlt'|Hge']; [lia | ] ];
    exfalso; apply Ha; rewrite Z2 by lia;
    unfold load_init, load, malloc;
    destruct (a <? 0); try reflexivity;
    destruct (nth_error (repeat None (Z.to_nat m)) (Z.to_nat a)) as [x|] eqn:N;
    try reflexivity;
    apply nth_error_In, repeat_spec in N; now subst x.
Qed.

(** X9. When [get_cluster_member_count] returns, the cell of every
    cluster below [k] holds the number of the first [n] points assigned
    to it, whatever the array held before. *)
Theorem get_cluster_member_count_counts :
  forall n k cai cmc out,
    get_cluster_member_count n k cai cmc = Some out ->
    counts_agree n k cai out.
Proof.
  intros n k cai cmc out H c Hc. exact (member_count_cells _ _ _ _ _ _ H Hc).
Qed.

Lemma get_cluster_member_count_counts_witness :
  counts_agree 3 2 [0; 1; 0] [Some 2; Some 1; None].
Proof.
  apply (get_cluster_member_count_counts 3 2 [0; 1; 0] [None; None; None]).
  vm_compute. reflexivity.
Defined.

(** X10. On an array whose cells were never written (the local arrays
    its callers pass), [get_cluster_member_count] returns only when every
    one of the [n] assignments is a cluster index from 0 to [k-1]: an
    index of -1 or of [k] and above makes it increment a cell that holds
    no value. *)
Theorem get_cluster_member_count_rejects_bad_index :
  forall n k cai m out,
    get_cluster_member_count n k cai (malloc m None) = Some out ->
    valid_assignment n k cai /\ counts_agree n k cai out.
Proof.
  intros n k cai m out H. split.
  - exact (member_count_defined _ _ _ _ _ H).
  - intros c Hc. exact (member_count_cells _ _ _ _ _ _ H Hc).
Qed.

Lemma get_cluster_member_count_rejects_bad_index_witness :
  valid_assignment 3 2 [0; 1; 0]
  /\ counts_agree 3 2 [0; 1; 0] [Some 2; Some 1; None].
Proof.
  apply (get_cluster_member_count_rejects_bad_index 3 2 [0; 1; 0] 3).
  vm_compute. reflexivity.
Defined.
(** ** Squared distances are not negative *)

Lemma binary_round_aux_not_negative mx ex lx :
  not_negative (binary_round_aux prec emax false mx ex lx) = true.
Proof.
  unfold binary_round_aux.
  destruct (shr_fexp prec emax mx ex lx) as [mrs e].
  destruct (shr_fexp prec emax _ e loc_Exact) as [mrs' e'].
  destruct (shr_m mrs'); try reflexivity.
  destruct (e' <=? emax - prec); reflexivity.
Qed.

Lemma SFmul_square_not_negative x :
  not_negative (SFmul prec emax x x) = true.
Proof.
  destruct x as [s|s| |s m e]; cbn [SFmul]; rewrite ?xorb_nilpotent;
    try reflexivity.
  apply binary_round_aux_not_negative.
Qed.

Lemma SFadd_not_negative x y :
  not_negative x = true -> not_negative y = true ->
  not_negative (SFadd prec emax x y) = true.
Proof.
  destruct x as [[]|[]| |[] mx ex], y as [[]|[]| |[] my ey];
    cbn [not_negative negb SFadd]; try discriminate; try reflexivity.
  intros _ _. cbn [cond_Zopp Z.add binary_normalize]. unfold binary_round.
  destruct (shl_align _ _ _) as [mz ez].
  apply binary_round_aux_not_negative.
Qed.

Lemma not_negative_ltb x :
  not_negative (Prim2SF x) = true -> PrimFloat.ltb x 0%float = false.
Proof.
  intros H. rewrite ltb_spec.
  change (Prim2SF 0%float) with (S754_zero false).
  destruct (Prim2SF x) as [[]|[]| |[] m e]; try discriminate; reflexivity.
Qed.

Lemma euclid_distance_sign dim p1 o1 p2 o2 r :
  euclid_distance dim p1 o1 p2 o2 = Some r ->
  not_negative (Prim2SF r) = true.
Proof.
  intros H. unfold euclid_distance in H.
  apply (for_lt_inv (fun _ acc => not_negative (Prim2SF acc) = true)) in H.
  - exact H.
  - reflexivity.
  - clear H. intros j t t' _ Inv Hbody.
    destruct (load p1 (o1 + j)) as [a|]; [ | discriminate].
    destruct (load p2 (o2 + j)) as [b|]; [ | discriminate].
    injection Hbody as <-. rewrite add_spec. apply SFadd_not_negative; [exact Inv | ].
    unfold sqr. rewrite mul_spec. apply SFmul_square_not_negative.
Qed.

(** X14. A squared distance that [euclid_distance] returns is never below
    zero (it is a sum of squares: zero, positive, infinite or NaN). *)
Theorem euclid_distance_not_negative :
  forall dim p1 o1 p2 o2 r,
    euclid_distance dim p1 o1 p2 o2 = Some r ->
    PrimFloat.ltb r 0%float = false.
Proof.
  intros dim p1 o1 p2 o2 r H.
  exact (not_negative_ltb _ (euclid_distance_sign _ _ _ _ _ _ H)).
Qed.

Lemma euclid_distance_not_negative_witness :
  PrimFloat.ltb 25%float 0%float = false.
Proof.
  apply (euclid_distance_not_negative 2 [1; 2]%float 0 [4; 6]%float 0 25%float).
  vm_compute. reflexivity.
Defined.

(** X15. The total distance [calc_total_distance] returns is never below
    zero either. *)
Theorem calc_total_distance_not_negative :
  forall dim n k X centroids cai totD,
    calc_total_distance dim n k X centroids cai = Some totD ->
    PrimFloat.ltb totD 0%float = false.
Proof.
  intros dim n k X centroids cai totD H. apply not_negative_ltb.
  unfold calc_total_distance in H.
  apply (for_lt_inv (fun _ acc => not_negative (Prim2SF acc) = true)) in H.
  - exact H.
  - reflexivity.
  - clear H. intros j t t' _ Inv Hbody.
    destruct (load cai j) as [a|]; [ | discriminate].
    destruct (a =? -1); [now injection Hbody as <- | ].
    destruct (euclid_distance dim X (j * dim) centroids (a * dim)) as [d|] eqn:E;
      [ | discriminate].
    injection Hbody as <-. rewrite add_spec.
    apply SFadd_not_negative; [exact Inv | exact (euclid_distance_sign _ _ _ _ _ _ E)].
Qed.

Lemma calc_total_distance_not_negative_witness :
  PrimFloat.ltb 32.5%float 0%float = false.
Proof.
  apply (calc_total_distance_not_negative 1 2 2 X_1_9
           [5.5; infinity; 0]%float [0; 0] 32.5%float).
  vm_compute. reflexivity.
Defined.
(** ** Copying and comparing assignments *)

Lemma length_update {A : Type} (v : A) :
  forall a i, length (update a i v) = length a.
Proof.
  induction a as [|h t IH]; intros [|i]; cbn; try reflexivity.
  now rewrite IH.
Qed.

Lemma length_store {A : Type} (a a' : list A) i v :
  store a i v = Some a' -> length a' = length a.
Proof.
  unfold store. intros H.
  destruct ((0 <=? i) && (i <? Z.of_nat (length a))); [ | discriminate].
  injection H as <-. apply length_update.
Qed.

(** X11. [copy_assignment_array] overwrites exactly the first [n] cells of
    the target with those of the source: the other cells and the length
    of the target stay as they were. *)
Theorem copy_assignment_array_spec :
  forall n src tgt t,
    copy_assignment_array n src tgt = Some t ->
    same_cells n src t
    /\ length t = length tgt
    /\ (forall ii, ~ 0 <= ii < n -> load t ii = load tgt ii).
Proof.
  intros n src tgt t H. split; [exact (copy_assignment_array_cells _ _ _ _ H) | ].
  unfold copy_assignment_array in H.
  apply (for_lt_inv
           (fun i o => length o = length tgt
                       /\ forall ii, ~ 0 <= ii < i -> load o ii = load tgt ii))
    in H.
  - destruct H as [H1 H2]. split; [exact H1 | ].
    intros ii Hii. apply H2. lia.
  - split; reflexivity.
  - clear H. intros j u u' Hj [I1 I2] Hbody.
    destruct (load src j) as [v|]; [ | discriminate]. split.
    + now rewrite (length_store _ _ _ _ Hbody).
    + intros ii Hii. assert (Hne : ii <> j) by lia.
      rewrite (load_store_other _ _ _ _ _ Hbody Hne). apply I2. lia.
Qed.

Lemma copy_assignment_array_spec_witness :
  same_cells 2 [4; 5; 6] [4; 5; 9]
  /\ length [4; 5; 9] = length [7; 8; 9]
  /\ (forall ii, ~ 0 <= ii < 2 -> load [4; 5; 9] ii = load [7; 8; 9] ii).
Proof.
  apply (copy_assignment_array_spec 2 [4; 5; 6] [7; 8; 9] [4; 5; 9]).
  vm_compute. reflexivity.
Defined.

(** X12. Copy, then compare: after [copy_assignment_array] the change
    count between the copy and its source is 0. *)
Theorem copy_then_no_change :
  forall n src tgt t,
    copy_assignment_array n src tgt = Some t ->
    assignment_change_count n t src = Some 0.
Proof.
  intros n src tgt t H. apply same_cells_no_change.
  intros ii Hii.
  destruct (copy_assignment_array_cells _ _ _ _ H ii Hii) as (v & L1 & L2).
  exists v. now split.
Qed.

Lemma copy_then_no_change_witness :
  assignment_change_count 2 [4; 5; 9] [4; 5; 6] = Some 0.
Proof.
  apply (copy_then_no_change 2 [4; 5; 6] [7; 8; 9] [4; 5; 9]).
  vm_compute. reflexivity.
Defined.

(** X13. The change count is between 0 and [n], and it is 0 exactly when
    the two arrays hold the same values in their first [n] cells. *)
Theorem assignment_change_count_spec :
  forall n a b c,
    assignment_change_count n a b = Some c ->
    0 <= c <= Z.max 0 n /\ (c = 0 <-> same_cells n a b).
Proof.
  intros n a b c H. split; [ | split].
  - unfold assignment_change_count in H.
    apply (for_lt_inv (fun i c => 0 <= c <= i)) in H; [exact H | lia | ].
    intros j t t' Hj I Hbody.
    destruct (load a j); [ | discriminate].
    destruct (load b j); [ | discriminate].
    destruct (_ =? _); injection Hbody as <-; lia.
  - intros ->. exact (assignment_change_count_zero _ _ _ H).
  - intros S. rewrite (same_cells_no_change _ _ _ S) in H. now injection H as <-.
Qed.

(** ** The table of distances *)

Lemma assignment_change_count_spec_witness :
  0 <= 1 <= Z.max 0 3 /\ (1 = 0 <-> same_cells 3 [0; 1; 0] [0; 0; 0]).
Proof.
  apply (assignment_change_count_spec 3 [0; 1; 0] [0; 0; 0] 1).
  vm_compute. reflexivity.
Defined.

Lemma all_distances_cells dim n k X centroid distance_out out :
  all_distances dim n k X centroid distance_out = Some out ->
  distance_table dim k X centroid n out.
Proof.
  revert distance_out out. intros out0 out H. unfold all_distances in H.
  apply (for_lt_inv (fun i o => distance_table dim k X centroid i o)) in H.
  - intros ii jj Hii Hjj. apply H; lia.
  - intros ii jj Hii. lia.
  - clear H. intros i t t' Hi Inv Hbody.
    apply (for_lt_inv
             (fun j o =>
                distance_table dim k X centroid i o
                /\ forall jj, 0 <= jj < j ->
                     exists d,
                       euclid_distance dim X (i * dim) centroid (jj * dim) = Some d
                       /\ load o (i * k + jj) = Some d))
      in Hbody.
    + destruct Hbody as [H1 H2]. intros ii jj Hii Hjj.
      destruct (Z.eq_dec ii i) as [->|Hne].
      * apply H2. lia.
      * apply H1; lia.
    + split; [exact Inv | intros jj Hjj; lia].
    + clear Hbody. intros j u u' Hj [I1 I2] Hstep.
      destruct (euclid_distance dim X (i * dim) centroid (j * dim)) as [d|] eqn:E;
        [ | discriminate].
      split.
      * intros ii jj Hii Hjj. destruct (I1 ii jj Hii Hjj) as (d' & E' & L').
        exists d'. split; [exact E' | ].
        rewrite (load_store_other _ _ _ _ _ Hstep); [exact L' | nia].
      * intros jj Hjj. destruct (Z.eq_dec jj j) as [->|Hne].
        -- exists d. split; [exact E | exact (load_store_same _ _ _ _ Hstep)].
        -- destruct (I2 jj ltac:(lia)) as (d' & E' & L').
           exists d'. split; [exact E' | ].
           rewrite (load_store_other _ _ _ _ _ Hstep); [exact L' | lia].
Qed.

(** X16. When [all_distances] returns, the cell [ii*k + jj] of the table
    holds the squared distance [euclid_distance] computes between the
    point [ii] and the centroid [jj], for every point below [n] and every
    centroid below [k], and that entry is not below zero. *)
Theorem all_distances_table :
  forall dim n k X centroid distance_out out ii jj,
    all_distances dim n k X centroid distance_out = Some out ->
    0 <= ii < n ->
    0 <= jj < k ->
    exists d,
      euclid_distance dim X (ii * dim) centroid (jj * dim) = Some d
      /\ load out (ii * k + jj) = Some d
      /\ PrimFloat.ltb d 0%float = false.
Proof.
  intros dim n k X centroid out0 out ii jj H Hii Hjj.
  destruct (all_distances_cells _ _ _ _ _ _ _ H ii jj Hii Hjj) as (d & E & L).
  exists d. repeat split; [exact E | exact L | ].
  exact (not_negative_ltb _ (euclid_distance_sign _ _ _ _ _ _ E)).
Qed.

Lemma all_distances_table_witness :
  exists d,
    euclid_distance 1 X_1_9 (1 * 1) [0; 5; 10]%float (0 * 1) = Some d
    /\ load [1; 16; 81; 16]%float (1 * 2 + 0) = Some d
    /\ PrimFloat.ltb d 0%float = false.
Proof.
  apply (all_distances_table 1 2 2 X_1_9 [0; 5; 10]%float
           [0; 0; 0; 0]%float [1; 16; 81; 16]%float 1 0).
  - vm_compute. reflexivity.
  - lia.
  - lia.
Defined.

(** X17. The setup of [kmeans] gives every point the nearest of the seed
    centroids 0, 5, 10: [dist] is the table of the squared distances to
    the seeds, and the index stored for a point is the lowest one whose
    distance is below 100000 and has no distance of the point below it
    (-1 when no distance is below 100000). *)
Theorem kmeans_setup_nearest_seed :
  forall dim X n k c p s ii,
    kmeans_setup dim X n k c = Some (p, s) ->
    0 <= k ->
    0 <= ii < n ->
    distance_table dim k X [0; 5; 10]%float n (dist s)
    /\ exists best closest,
         load (cluster_assignment_cur s) ii = Some best
         /\ nearest_among k (dist s) ii k best closest.
Proof.
  intros dim X n k c p s ii H Hk Hii. unfold kmeans_setup in H.
  cbn [deref array] in H.
  destruct (all_distances dim n k X [0; 5; 10]%float (malloc (n * k) 0%float))
    as [d|] eqn:D; [ | discriminate].
  destruct (choose_all_clusters_from_distances dim n k X d (malloc n 0))
    as [cur|] eqn:C; [ | discriminate].
  destruct (copy_assignment_array n cur (malloc n 0)); [ | discriminate].
  injection H as <- <-. cbn. split.
  - exact (all_distances_cells _ _ _ _ _ _ _ D).
  - destruct (choose_all_clusters_stored _ _ _ _ _ _ _ C ii Hii)
      as (b & cl & Cb & Lb).
    exists b, cl. split; [exact Lb | ].
    exact (choose_cluster_nearest _ _ _ _ _ Hk Cb).
Qed.

Lemma kmeans_setup_nearest_seed_witness :
  distance_table 1 2 X_1_9 [0; 5; 10]%float 2 (dist s0_1_9)
  /\ exists best closest,
       load (cluster_assignment_cur s0_1_9) 1 = Some best
       /\ nearest_among 2 (dist s0_1_9) 1 2 best closest.
Proof.
  apply (kmeans_setup_nearest_seed 1 X_1_9 2 2 [] Local s0_1_9 1).
  - vm_compute. reflexivity.
  - lia.
  - lia.
Defined.
(** ** The assignment a defined run returns *)

Lemma cluster_diag_valid dim n k X cai cc u :
  cluster_diag dim n k X cai cc = Some u -> valid_assignment n k cai.
Proof.
  unfold cluster_diag. intros H.
  destruct (get_cluster_member_count n k cai (malloc MAX_CLUSTERS None))
    as [cmc|] eqn:G; [ | discriminate].
  exact (member_count_defined _ _ _ _ _ G).
Qed.

Lemma same_cells_valid n k a b :
  same_cells n a b -> valid_assignment n k a -> valid_assignment n k b.
Proof.
  intros S V ii Hii. destruct (S ii Hii) as (v & La & Lb).
  destruct (V ii Hii) as (c & Lc & Hc). rewrite La in Lc. injection Lc as ->.
  exists c. now split.
Qed.

Lemma same_cells_sym n a b : same_cells n a b -> same_cells n b a.
Proof.
  intros S ii Hii. destruct (S ii Hii) as (v & La & Lb). exists v. now split.
Qed.

Lemma batch_body_valid dim X n k p s fl s' :
  valid_assignment n k (cluster_assignment_prev s)
  \/ same_cells n (cluster_assignment_prev s) (cluster_assignment_cur s) ->
  batch_body dim X n k p s = Some (fl, s') ->
  valid_assignment n k (cluster_assignment_prev s')
  /\ (fl = Break -> valid_assignment n k (cluster_assignment_cur s')).
Proof.
  intros I H. unfold batch_body in H.
  destruct (cluster_diag dim n k X (cluster_assignment_cur s)
              (deref (centroids s) p)) as [u|] eqn:D; [ | discriminate].
  apply cluster_diag_valid in D.
  assert (Vp : valid_assignment n k (cluster_assignment_prev s)).
  { destruct I as [I|I]; [exact I | ].
    exact (same_cells_valid _ _ _ _ (same_cells_sym _ _ _ I) D). }
  split_matches H; injection H as <- <-; cbn.
  - split; [exact Vp | intros _].
    match goal with
    | C : copy_assignment_array _ _ _ = Some _ |- _ =>
        apply copy_assignment_array_cells in C;
        exact (same_cells_valid _ _ _ _ C Vp)
    end.
  - match goal with
    | C : copy_assignment_array _ _ _ = Some _,
      A : assignment_change_count _ _ _ = Some ?z,
      E : (?z =? 0) = true |- _ =>
        apply copy_assignment_array_cells in C;
        pose proof (same_cells_valid _ _ _ _ C D) as Vp';
        apply Z.eqb_eq in E; subst z;
        apply assignment_change_count_zero in A
    end.
    split; [exact Vp' | intros _].
    match goal with
    | A : same_cells _ _ _ |- _ =>
        exact (same_cells_valid _ _ _ _ (same_cells_sym _ _ _ A) Vp')
    end.
  - match goal with
    | C : copy_assignment_array _ _ _ = Some _ |- _ =>
        apply copy_assignment_array_cells in C;
        pose proof (same_cells_valid _ _ _ _ C D) as Vp'
    end.
    split; [exact Vp' | discriminate].
Qed.

Lemma kmeans_setup_same_cells dim X n k c p s :
  kmeans_setup dim X n k c = Some (p, s) ->
  same_cells n (cluster_assignment_prev s) (cluster_assignment_cur s)
  /\ batch_iteration s = 0.
Proof.
  unfold kmeans_setup. intros H. split_matches H. injection H as <- <-. cbn.
  split; [ | reflexivity].
  match goal with
  | C : copy_assignment_array _ _ _ = Some _ |- _ =>
      apply copy_assignment_array_cells in C; exact (same_cells_sym _ _ _ C)
  end.
Qed.

Lemma kmeans_loop_valid dim X n k c q s :
  kmeans_loop dim X n k c = Returns (q, s) ->
  valid_assignment n k (cluster_assignment_cur s).
Proof.
  unfold kmeans_loop. intros H.
  destruct (kmeans_setup dim X n k c) as [[p s0]|] eqn:E; [ | discriminate].
  destruct (kmeans_setup_same_cells _ _ _ _ _ _ _ E) as [S0 B0].
  change 100%nat with (S (S 98)) in H. cbn [batch_loop] in H.
  rewrite B0 in H. cbn [Z.ltb Z.compare] in H.
  destruct (batch_body dim X n k p s0) as [[[|] s1]|] eqn:B1; try discriminate.
  - injection H as <- <-.
    exact (proj2 (batch_body_valid _ _ _ _ _ _ _ _ (or_intror S0) B1) eq_refl).
  - pose proof (batch_body_continue _ _ _ _ _ _ _ B1) as I1.
    rewrite I1, B0 in H.
    cbn [Z.add Z.ltb Z.compare Pos.compare Pos.compare_cont] in H.
    destruct (batch_body dim X n k p s1) as [[fl s2]|] eqn:B2; [ | discriminate].
    pose proof (batch_body_second_pass_breaks _ _ _ _ _ _ _ _
                  (batch_body_continue_holds_data _ _ _ _ _ _ _ B1) B2) as F.
    subst fl. injection H as <- <-.
    destruct (batch_body_valid _ _ _ _ _ _ _ _ (or_intror S0) B1) as [V1 _].
    exact (proj2 (batch_body_valid _ _ _ _ _ _ _ _ (or_introl V1) B2) eq_refl).
Qed.

(** X20. In a run of [kmeans] that is free of undefined behaviour (every
    access inside its array, every cell read after it was written) and
    returns, the assignment handed back holds a cluster index from 0 to
    [k-1] for every one of the [n] points.  The assignment step can store
    -1, but the pass that follows then increments
    [cluster_member_count[-1]], which is outside the array: such a run
    has no defined behaviour, and what a compiled program does with it
    is not covered here. *)
Theorem kmeans_defined_run_cluster_indices :
  forall dim X n k c final centroid out,
    kmeans dim X n k c final = Returns (centroid, out) ->
    valid_assignment n k out.
Proof.
  intros dim X n k c final centroid out H. unfold kmeans in H.
  destruct (kmeans_loop dim X n k c) as [[q s]| |] eqn:L; try discriminate.
  destruct (copy_assignment_array n (cluster_assignment_cur s) final)
    as [f|] eqn:C; [ | discriminate].
  injection H as <- <-.
  apply copy_assignment_array_cells in C.
  exact (same_cells_valid _ _ _ _ C (kmeans_loop_valid _ _ _ _ _ _ _ L)).
Qed.

Lemma kmeans_defined_run_cluster_indices_witness :
  valid_assignment 2 2 [0; 1].
Proof.
  apply (kmeans_defined_run_cluster_indices 1 X_1_9 2 2 [] [7; 7] [] [0; 1]).
  vm_compute. reflexivity.
Defined.

(** ** The local arrays are too small for three clusters *)

Lemma for_from_first_fails {S : Type} (body : Z -> S -> option S) count i s :
  body i s = None -> for_from (Datatypes.S count) i body s = None.
Proof. intros H. cbn [for_from]. now rewrite H. Qed.

Lemma store_out_of_range {A : Type} (a : list A) i v :
  Z.of_nat (length a) <= i -> store a i v = None.
Proof.
  intros H. unfold store.
  destruct (0 <=? i); destruct (i <? Z.of_nat (length a)) eqn:E;
    try reflexivity.
  apply Z.ltb_lt in E. lia.
Qed.

Lemma calc_cluster_centroids_overrun dim n k X cai ncc :
  1 <= k ->
  Z.of_nat (length ncc) <= dim * k ->
  calc_cluster_centroids dim n k X cai ncc = None.
Proof.
  intros Hk Hlen. unfold calc_cluster_centroids.
  destruct (for_lt k (fun b u => _ <- load ncc b ;; Some u) tt); [ | reflexivity].
  assert (F : for_lt k (fun ii c => store c (dim * k) 0%float) ncc = None).
  { unfold for_lt. replace (Z.to_nat k) with (S (Z.to_nat (k - 1))) by lia.
    apply for_from_first_fails. now apply store_out_of_range. }
  now rewrite F.
Qed.

(** X21. With at least one cluster and [dim * k >= 3] (three clusters in
    one dimension, the case the seeds 0, 5, 10 are written for), no run
    of [kmeans] is free of undefined behaviour: if none occurs before,
    the first centroid update writes [new_cluster_centroid[dim*k]],
    which is outside the local array of three doubles.  (A compiled
    program may well return from such a call; the language gives the run
    no meaning.) *)
Theorem kmeans_three_clusters_out_of_bounds :
  forall dim X n k c final,
    1 <= k ->
    3 <= dim * k ->
    kmeans dim X n k c final = Undefined.
Proof.
  intros dim X n k c final Hk Hdk. unfold kmeans, kmeans_loop.
  destruct (kmeans_setup dim X n k c) as [[p s]|] eqn:E; [ | reflexivity].
  assert (A : p = Local /\ array (centroids s) = [0; 5; 10]%float
              /\ batch_iteration s = 0).
  { unfold kmeans_setup in E. split_matches E. injection E as <- <-. now cbn. }
  destruct A as (-> & A & B).
  change 100%nat with (S 99). cbn [batch_loop]. rewrite B. cbn [Z.ltb Z.compare].
  assert (N : batch_body dim X n k Local s = None).
  { unfold batch_body. cbn [deref]. rewrite A.
    destruct (cluster_diag dim n k X (cluster_assignment_cur s) [0; 5; 10]%float);
      [ | reflexivity].
    rewrite calc_cluster_centroids_overrun; [reflexivity | exact Hk | cbn; lia]. }
  now rewrite N.
Qed.

Lemma kmeans_three_clusters_out_of_bounds_witness :
  kmeans 1 [1; 2; 9; 10; 11; 12]%float 3 3 [] [0; 0; 0] = Undefined.
Proof.
  apply (kmeans_three_clusters_out_of_bounds 1 [1; 2; 9; 10; 11; 12]%float 3 3
           [] [0; 0; 0]); lia.
Defined.

(** ** The warnings of the centroid update *)

Lemma clusters_succ i : 0 <= i -> clusters (i + 1) = clusters i ++ [i].
Proof.
  intros H. unfold clusters.
  replace (Z.to_nat (i + 1)) with (Z.to_nat i + 1)%nat by lia.
  rewrite seq_app, map_app. cbn. f_equal. f_equal. lia.
Qed.

(** X18. [calc_cluster_centroids] prints its warning for exactly the
    clusters that have no member among the [n] points, in increasing
    order. *)
Theorem calc_cluster_centroids_warns_empty :
  forall dim n k X cai ncc out warned,
    calc_cluster_centroids dim n k X cai ncc = Some (out, warned) ->
    warned = filter (fun c => members n cai c =? 0) (clusters k).
Proof.
  intros dim n k X cai ncc out warned H. unfold calc_cluster_centroids in H.
  destruct (for_lt k (fun b u => _ <- load ncc b ;; Some u) tt);
    [ | discriminate].
  destruct (for_lt k (fun ii c => store c (dim * k) 0%float) ncc) as [n1|];
    [ | discriminate].
  match type of H with
  | context [for_lt n ?body n1] =>
      destruct (for_lt n body n1) as [n2|]; [ | discriminate]
  end.
  match type of H with
  | context [for_lt k ?body ?init] =>
      destruct (for_lt k body init) as [[[n3 cmc] w]|] eqn:L; [ | discriminate]
  end.
  injection H as <- <-.
  apply (for_lt_inv
           (fun i (st : list double * cells * list Z) =>
              snd st = filter (fun c => members n cai c =? 0) (clusters i)))
    in L.
  - cbn [snd] in L. rewrite L. unfold clusters. f_equal. f_equal. f_equal. lia.
  - reflexivity.
  - clear L. intros j [[t1 t2] t3] [[u1 u2] u3] Hj Inv Hbody. cbn [snd] in *.
    destruct (get_cluster_member_count n k cai t2) as [cmc'|] eqn:G;
      [ | discriminate].
    rewrite (member_count_cells _ _ _ _ _ _ G Hj) in Hbody.
    match type of Hbody with
    | context [for_lt dim ?body t1] =>
        destruct (for_lt dim body t1); [ | discriminate]
    end.
    injection Hbody as <- <- <-.
    rewrite (clusters_succ j) by lia. rewrite filter_app. cbn [filter].
    rewrite Inv. destruct (members n cai j =? 0); [reflexivity | ].
    now rewrite app_nil_r.
Qed.

Lemma calc_cluster_centroids_warns_empty_witness :
  [1] = filter (fun c => members 1 [0] c =? 0) (clusters 2).
Proof.
  apply (calc_cluster_centroids_warns_empty 1 1 2 [1]%float [0]
           [0; 5; 10]%float [1; infinity; 0]%float [1]).
  vm_compute. reflexivity.
Defined.
(** ** The cells of the centroid update *)

Lemma for_from_snoc {S : Type} (body : Z -> S -> option S) :
  forall count i s,
    for_from (Datatypes.S count) i body s
    = (s' <- for_from count i body s ;; body (i + Z.of_nat count) s').
Proof.
  induction count as [|count IH]; intros i s.
  - cbn. rewrite Z.add_0_r. now destruct (body i s).
  - cbn [for_from]. destruct (body i s) as [t|]; [ | reflexivity].
    change (match body (i + 1) t with
            | Some s' => for_from count (i + 1 + 1) body s'
            | None => None
            end) with (for_from (Datatypes.S count) (i + 1) body t).
    rewrite IH. replace (i + 1 + Z.of_nat count) with (i + Z.of_nat (Datatypes.S count)) by lia.
    reflexivity.
Qed.

Lemma for_lt_succ {S : Type} (body : Z -> S -> option S) i s :
  0 <= i ->
  for_lt (i + 1) body s = (s' <- for_lt i body s ;; body i s').
Proof.
  intros H. unfold for_lt.
  replace (Z.to_nat (i + 1)) with (Datatypes.S (Z.to_nat i)) by lia.
  rewrite for_from_snoc. replace (0 + Z.of_nat (Z.to_nat i)) with i by lia.
  reflexivity.
Qed.

Lemma for_lt_ind {S : Type} (body : Z -> S -> option S) n s s' :
  for_lt n body s = Some s' ->
  forall P : Z -> S -> Prop,
    P 0 s ->
    (forall j t t', 0 <= j < n -> P j t -> body j t = Some t' -> P (j + 1) t') ->
    P (Z.max 0 n) s'.
Proof. intros H P H0 Hstep. exact (for_lt_inv P body n s s' H0 Hstep H). Qed.

Lemma for_lt_max {S : Type} (body : Z -> S -> option S) n s :
  for_lt (Z.max 0 n) body s = for_lt n body s.
Proof. unfold for_lt. f_equal. lia. Qed.

Lemma accumulated_step dim X cai i c jj old a s :
  0 <= i ->
  load cai i = Some a ->
  accumulated dim X cai i c jj old = Some s ->
  accumulated dim X cai (i + 1) c jj old
  = if a =? c
    then x <- load X (i * dim + jj) ;; Some (PrimFloat.add s x)
    else Some s.
Proof.
  intros Hi La Hs. unfold accumulated in *.
  rewrite for_lt_succ by exact Hi. rewrite Hs, La. reflexivity.
Qed.

Lemma cell_index_inj dim a jj' c jj :
  0 <= jj < dim -> 0 <= jj' < dim ->
  a * dim + jj' = c * dim + jj -> a = c /\ jj' = jj.
Proof. intros H1 H2 E. assert (a = c) by nia. subst. lia. Qed.

(** The loop that is meant to reset the sums leaves every cell of a
    centroid as it is. *)
Lemma reset_loop_cells dim k (ncc n1 : list double) :
  for_lt k (fun ii c => store c (dim * k) 0%float) ncc = Some n1 ->
  forall idx, idx <> dim * k -> load n1 idx = load ncc idx.
Proof.
  intros H.
  apply (for_lt_ind _ _ _ _ H
           (fun _ o => forall idx, idx <> dim * k -> load o idx = load ncc idx));
    [reflexivity | ].
  intros j t t' _ Inv Hbody idx Hidx.
  rewrite (load_store_other _ _ _ _ _ Hbody Hidx). now apply Inv.
Qed.

(** The loop that adds the points to the cells of their clusters. *)
Lemma sum_loop_cells dim n k (X : list double) cai (n1 n2 : list double) :
  for_lt n
    (fun ii (ncc : list double) =>
       active_cluster <- load cai ii ;;
       for_lt dim
         (fun jj (ncc : list double) =>
            s <- load ncc (active_cluster * dim + jj) ;;
            x <- load X (ii * dim + jj) ;;
            store ncc (active_cluster * dim + jj) (PrimFloat.add s x))
         ncc)
    n1 = Some n2 ->
  forall c jj old,
    0 <= c < k -> 0 <= jj < dim ->
    load n1 (c * dim + jj) = Some old ->
    exists s, accumulated dim X cai n c jj old = Some s
              /\ load n2 (c * dim + jj) = Some s.
Proof.
  intros H.
  assert (Inv :
    forall c jj old,
      0 <= c < k -> 0 <= jj < dim ->
      load n1 (c * dim + jj) = Some old ->
      exists s, accumulated dim X cai (Z.max 0 n) c jj old = Some s
                /\ load n2 (c * dim + jj) = Some s);
    [ | intros c jj old Hc Hjj L; destruct (Inv c jj old Hc Hjj L) as (s & A & L');
        exists s; split; [ | exact L'];
        unfold accumulated in *; now rewrite for_lt_max in A ].
  apply (for_lt_ind _ _ _ _ H
           (fun i o =>
              forall c jj old,
                0 <= c < k -> 0 <= jj < dim ->
                load n1 (c * dim + jj) = Some old ->
                exists s, accumulated dim X cai i c jj old = Some s
                          /\ load o (c * dim + jj) = Some s)).
  - intros c jj old _ _ L. exists old. split; [reflexivity | exact L].
  - clear H. intros i t t' Hi Inv Hbody.
    destruct (load cai i) as [a|] eqn:La; [ | discriminate].
    assert (J :
      forall c jj old,
        0 <= c < k -> 0 <= jj < dim ->
        load n1 (c * dim + jj) = Some old ->
        exists s,
          (if (a =? c) && (jj <? Z.max 0 dim)
           then accumulated dim X cai (i + 1) c jj old
           else accumulated dim X cai i c jj old) = Some s
          /\ load t' (c * dim + jj) = Some s);
      [ apply (for_lt_ind _ _ _ _ Hbody
                 (fun j o =>
                    forall c jj old,
                      0 <= c < k -> 0 <= jj < dim ->
                      load n1 (c * dim + jj) = Some old ->
                      exists s,
                        (if (a =? c) && (jj <? j)
                         then accumulated dim X cai (i + 1) c jj old
                         else accumulated dim X cai i c jj old) = Some s
                        /\ load o (c * dim + jj) = Some s)) | ].
    3: { intros c jj old Hc Hjj L.
      destruct (J c jj old Hc Hjj L) as (s & A & L').
      exists s. split; [ | exact L'].
      assert (E : (jj <? Z.max 0 dim) = true) by (apply Z.ltb_lt; lia).
      rewrite E, andb_true_r in A.
      destruct (a =? c) eqn:Eac; [exact A | ].
      rewrite (accumulated_step _ _ _ _ _ _ _ _ _ (proj1 Hi) La A), Eac.
      reflexivity. }
    + intros c jj old Hc Hjj L.
      assert (E : (jj <? 0) = false) by (apply Z.ltb_ge; lia).
      rewrite E, andb_false_r. now apply Inv.
    + clear Hbody. intros j u u' Hj J Hstep c jj old Hc Hjj L.
      destruct (load u (a * dim + j)) as [s0|] eqn:Ls; [ | discriminate].
      destruct (load X (i * dim + j)) as [x|] eqn:Lx; [ | discriminate].
      destruct (J c jj old Hc Hjj L) as (s & A & L').
      destruct (Z.eq_dec (a * dim + j) (c * dim + jj)) as [Eidx|Nidx].
      * destruct (cell_index_inj _ _ _ _ _ Hjj Hj Eidx) as [-> ->].
        rewrite Z.eqb_refl in *.
        assert (E1 : (jj <? jj) = false) by (apply Z.ltb_irrefl).
        assert (E2 : (jj <? jj + 1) = true) by (apply Z.ltb_lt; lia).
        rewrite E1 in A. rewrite E2. cbn [andb] in *.
        rewrite Ls in L'. injection L' as ->.
        exists (PrimFloat.add s x). split.
        -- rewrite (accumulated_step _ _ _ _ _ _ _ _ _ (proj1 Hi) La A).
           rewrite Z.eqb_refl. rewrite Lx. reflexivity.
        -- exact (load_store_same _ _ _ _ Hstep).
      * exists s. split.
        -- destruct (a =? c) eqn:Eac; [ | exact A]. cbn [andb] in *.
           apply Z.eqb_eq in Eac. subst a.
           assert (jj <> j) by (intros ->; now apply Nidx).
           destruct (jj <? j) eqn:E1.
           ++ assert (E2 : (jj <? j + 1) = true)
                by (apply Z.ltb_lt; apply Z.ltb_lt in E1; lia).
              now rewrite E2.
           ++ assert (E2 : (jj <? j + 1) = false)
                by (apply Z.ltb_ge; apply Z.ltb_ge in E1; lia).
              now rewrite E2.
        -- rewrite (load_store_other _ _ _ _ _ Hstep); [exact L' | congruence].
Qed.

(** X19. What the centroid update leaves in the cell of cluster [c] and
    coordinate [jj]: the value [old] the cell held before the call, plus
    the coordinates of the members of [c] in the order of the points,
    divided by the number of members.  The old value is part of the sum;
    for a cluster without members the divisor is 0. *)
Theorem calc_cluster_centroids_cells :
  forall dim n k X cai ncc out warned c jj old,
    calc_cluster_centroids dim n k X cai ncc = Some (out, warned) ->
    0 <= c < k ->
    0 <= jj < dim ->
    load ncc (c * dim + jj) = Some old ->
    exists s,
      accumulated dim X cai n c jj old = Some s
      /\ load out (c * dim + jj)
         = Some (PrimFloat.div s (double_of_int (members n cai c))).
Proof.
  intros dim n k X cai ncc out warned c jj old H Hc Hjj Lold.
  unfold calc_cluster_centroids in H.
  destruct (for_lt k (fun b u => _ <- load ncc b ;; Some u) tt);
    [ | discriminate].
  destruct (for_lt k (fun ii c => store c (dim * k) 0%float) ncc) as [n1|] eqn:L2;
    [ | discriminate].
  match type of H with
  | context [for_lt n ?body n1] =>
      destruct (for_lt n body n1) as [n2|] eqn:L3; [ | discriminate]
  end.
  match type of H with
  | context [for_lt k ?body ?init] =>
      destruct (for_lt k body init) as [[[n3 cmc] w]|] eqn:L4; [ | discriminate]
  end.
  injection H as <- <-.
  assert (L1 : load n1 (c * dim + jj) = Some old).
  { rewrite (reset_loop_cells _ _ _ _ L2); [exact Lold | nia]. }
  destruct (sum_loop_cells _ _ _ _ _ _ _ L3 c jj old Hc Hjj L1) as (s & A & Ls).
  exists s. split; [exact A | ].
  assert (Inv :
    forall c jj s,
      0 <= c < k -> 0 <= jj < dim ->
      load n2 (c * dim + jj) = Some s ->
      load n3 (c * dim + jj)
      = Some (if c <? Z.max 0 k
              then PrimFloat.div s (double_of_int (members n cai c))
              else s)).
  { apply (for_lt_ind _ _ _ _ L4
             (fun i (st : list double * cells * list Z) =>
                forall c jj s,
                  0 <= c < k -> 0 <= jj < dim ->
                  load n2 (c * dim + jj) = Some s ->
                  load (fst (fst st)) (c * dim + jj)
                  = Some (if c <? i
                          then PrimFloat.div s (double_of_int (members n cai c))
                          else s))).
    - intros c0 jj0 s0 Hc0 _ L0. cbn [fst].
      assert (E : (c0 <? 0) = false) by (apply Z.ltb_ge; lia). now rewrite E.
    - intros i [[t1 t2] t3] [[u1 u2] u3] Hi I Hbody. cbn [fst] in *.
      destruct (get_cluster_member_count n k cai t2) as [cmc'|] eqn:G;
        [ | discriminate].
      rewrite (member_count_cells _ _ _ _ _ _ G Hi) in Hbody.
      match type of Hbody with
      | context [for_lt dim ?body t1] =>
          destruct (for_lt dim body t1) as [t1'|] eqn:L5; [ | discriminate]
      end.
      injection Hbody as <- <- <-.
      assert (J :
        forall c jj s,
          0 <= c < k -> 0 <= jj < dim ->
          load n2 (c * dim + jj) = Some s ->
          load t1' (c * dim + jj)
          = Some (if (c <? i) || ((c =? i) && (jj <? Z.max 0 dim))
                  then PrimFloat.div s (double_of_int (members n cai c))
                  else s)).
      { apply (for_lt_ind _ _ _ _ L5
                 (fun j (o : list double) =>
                    forall c jj s,
                      0 <= c < k -> 0 <= jj < dim ->
                      load n2 (c * dim + jj) = Some s ->
                      load o (c * dim + jj)
                      = Some (if (c <? i) || ((c =? i) && (jj <? j))
                              then PrimFloat.div s
                                     (double_of_int (members n cai c))
                              else s))).
        - intros c0 jj0 s0 Hc0 Hjj0 L0.
          assert (E : (jj0 <? 0) = false) by (apply Z.ltb_ge; lia).
          rewrite E, andb_false_r, orb_false_r. now apply I.
        - intros j o o' Hj Ju Hstep c0 jj0 s0 Hc0 Hjj0 L0. unfold double in *.
          destruct (load o (i * dim + j)) as [v|] eqn:Lv; [ | discriminate].
          destruct (Z.eq_dec (i * dim + j) (c0 * dim + jj0)) as [Eidx|Nidx].
          + destruct (cell_index_inj _ _ _ _ _ Hjj0 Hj Eidx) as [<- <-].
            rewrite (load_store_same _ _ _ _ Hstep).
            rewrite (Ju i j s0 Hc0 Hj L0) in Lv.
            assert (E1 : (i <? i) = false) by apply Z.ltb_irrefl.
            assert (E2 : (j <? j) = false) by apply Z.ltb_irrefl.
            assert (E3 : (j <? j + 1) = true) by (apply Z.ltb_lt; lia).
            rewrite E1, E2, Z.eqb_refl in Lv. rewrite E1, E3, Z.eqb_refl.
            cbn [orb andb] in *. injection Lv as <-. reflexivity.
          + rewrite (load_store_other _ _ _ _ _ Hstep) by congruence.
            rewrite (Ju c0 jj0 s0 Hc0 Hjj0 L0).
            destruct (c0 =? i) eqn:Ec; [ | now rewrite !andb_false_l].
            apply Z.eqb_eq in Ec. subst c0.
            assert (jj0 <> j) by (intros ->; now apply Nidx).
            destruct (jj0 <? j) eqn:E1.
            * assert (E2 : (jj0 <? j + 1) = true)
                by (apply Z.ltb_lt; apply Z.ltb_lt in E1; lia).
              now rewrite E2.
            * assert (E2 : (jj0 <? j + 1) = false)
                by (apply Z.ltb_ge; apply Z.ltb_ge in E1; lia).
              now rewrite E2. }
      intros c0 jj0 s0 Hc0 Hjj0 L0. unfold double in *.
      rewrite (J c0 jj0 s0 Hc0 Hjj0 L0).
      assert (E : (jj0 <? Z.max 0 dim) = true) by (apply Z.ltb_lt; lia).
      rewrite E, andb_true_r.
      destruct (Z.lt_total c0 i) as [Hlt|[->|Hgt]].
      + assert (E1 : (c0 <? i) = true) by (apply Z.ltb_lt; lia).
        assert (E2 : (c0 <? i + 1) = true) by (apply Z.ltb_lt; lia).
        now rewrite E1, E2.
      + assert (E2 : (i <? i + 1) = true) by (apply Z.ltb_lt; lia).
        now rewrite Z.eqb_refl, E2, orb_true_r.
      + assert (E1 : (c0 <? i) = false) by (apply Z.ltb_ge; lia).
        assert (E2 : (c0 <? i + 1) = false) by (apply Z.ltb_ge; lia).
        assert (E3 : (c0 =? i) = false) by (apply Z.eqb_neq; lia).
        now rewrite E1, E2, E3. }
  unfold double in *. rewrite (Inv c jj s Hc Hjj Ls).
  assert (E : (c <? Z.max 0 k) = true) by (apply Z.ltb_lt; lia).
  now rewrite E.
Qed.

Lemma calc_cluster_centroids_cells_witness :
  exists s,
    accumulated 1 [1; 9]%float [0; 1] 2 1 0 5%float = Some s
    /\ load [1; 14; 0]%float (1 * 1 + 0)
       = Some (PrimFloat.div s (double_of_int (members 2 [0; 1] 1))).
Proof.
  apply (calc_cluster_centroids_cells 1 2 2 [1; 9]%float [0; 1]
           [0; 5; 10]%float [1; 14; 0]%float [] 1 0 5%float).
  - vm_compute. reflexivity.
  - lia.
  - lia.
  - vm_compute. reflexivity.
Defined.
(** ** Moving one point *)

Lemma firstn_update {A : Type} (v : A) :
  forall m a i, firstn m (update a i v) = update (firstn m a) i v.
Proof.
  induction m as [|m IH]; intros [|h t] [|i]; cbn; try reflexivity.
  now rewrite IH.
Qed.

Lemma count_occ_update :
  forall (l : list Z) i old v c,
    nth_error l i = Some old ->
    Z.of_nat (count_occ Z.eq_dec (update l i v) c)
    = Z.of_nat (count_occ Z.eq_dec l c)
      - (if old =? c then 1 else 0) + (if v =? c then 1 else 0).
Proof.
  induction l as [|h t IH]; intros [|i] old v c H; cbn in H; try discriminate.
  - injection H as ->. cbn [update count_occ].
    destruct (Z.eq_dec old c) as [->|N1], (Z.eq_dec v c) as [->|N2];
      rewrite ?Z.eqb_refl;
      repeat match goal with
             | N : ?a <> ?b |- _ => apply Z.eqb_neq in N; rewrite N
             end; lia.
  - cbn [update count_occ]. specialize (IH i old v c H).
    destruct (Z.eq_dec h c); lia.
Qed.

Lemma members_store n a a' i old v c :
  store a i v = Some a' ->
  load a i = Some old ->
  0 <= i < n ->
  members n a' c
  = members n a c - (if old =? c then 1 else 0) + (if v =? c then 1 else 0).
Proof.
  unfold store, members. intros Hs Hl Hi.
  destruct ((0 <=? i) && (i <? Z.of_nat (length a))); [ | discriminate].
  injection Hs as <-. rewrite firstn_update.
  apply count_occ_update. rewrite (load_nth_error _ _ (proj1 Hi)) in Hl.
  rewrite nth_error_firstn.
  destruct (Nat.ltb_spec (Z.to_nat i) (Z.to_nat n)); [exact Hl | lia].
Qed.

(** X23. [perform_move] moves one point and keeps the books: the
    assignment changes at [move_point] only, where it becomes the target
    cluster, and member counts that agreed with the assignment before the
    call agree with it after. *)
Theorem perform_move_keeps_counts :
  forall dim n k X ca cc cmc move_point target ca' cc' cmc' warned,
    perform_move dim n k X ca cc cmc move_point target
    = Some (ca', cc', cmc', warned) ->
    0 <= move_point < n ->
    counts_agree n k ca cmc ->
    load ca' move_point = Some target
    /\ (forall ii, ii <> move_point -> load ca' ii = load ca ii)
    /\ counts_agree n k ca' cmc'.
Proof.
  intros dim n k X ca cc cmc mp target ca' cc' cmc' warned H Hmp Agree.
  unfold perform_move in H.
  destruct (load ca mp) as [old|] eqn:Lold; [ | discriminate].
  destruct (store ca mp target) as [ca1|] eqn:S1; [ | discriminate].
  destruct (load_init cmc old) as [c1|] eqn:L1; [ | discriminate].
  destruct (store cmc old (Some (c1 - 1))) as [cmc1|] eqn:S2; [ | discriminate].
  destruct (load_init cmc1 target) as [c2|] eqn:L2; [ | discriminate].
  destruct (store cmc1 target (Some (c2 + 1))) as [cmc2|] eqn:S3;
    [ | discriminate].
  destruct (load_init cmc2 old) as [m|]; [ | discriminate].
  match type of H with
  | context [for_lt dim ?body cc] =>
      destruct (for_lt dim body cc); [ | discriminate]
  end.
  injection H as <- <- <- <-.
  split; [exact (load_store_same _ _ _ _ S1) | split].
  - intros ii Hii. exact (load_store_other _ _ _ _ _ S1 Hii).
  - intros c Hc. rewrite (members_store _ _ _ _ _ _ c S1 Lold Hmp).
    destruct (Z.eq_dec c target) as [->|Nt].
    + rewrite (load_init_store_same _ _ _ _ S3), Z.eqb_refl. f_equal.
      destruct (Z.eq_dec target old) as [->|No].
      * rewrite (load_init_store_same _ _ _ _ S2) in L2. injection L2 as <-.
        rewrite (Agree old Hc) in L1. injection L1 as <-.
        rewrite Z.eqb_refl. lia.
      * rewrite (load_init_store_other _ _ _ _ _ S2 No) in L2.
        rewrite (Agree target Hc) in L2. injection L2 as <-.
        assert (E : (old =? target) = false) by (apply Z.eqb_neq; congruence).
        rewrite E. lia.
    + rewrite (load_init_store_other _ _ _ _ _ S3 Nt).
      assert (E : (target =? c) = false) by (apply Z.eqb_neq; congruence).
      rewrite E.
      destruct (Z.eq_dec c old) as [->|No].
      * rewrite (load_init_store_same _ _ _ _ S2), Z.eqb_refl.
        rewrite (Agree old Hc) in L1. injection L1 as <-. f_equal. lia.
      * rewrite (load_init_store_other _ _ _ _ _ S2 No), (Agree c Hc).
        assert (E' : (old =? c) = false) by (apply Z.eqb_neq; congruence).
        rewrite E'. f_equal. lia.
Qed.

Lemma perform_move_keeps_counts_witness :
  load [0; 1; 1] 1 = Some 1
  /\ (forall ii, ii <> 1 -> load [0; 1; 1] ii = load [0; 0; 1] ii)
  /\ counts_agree 3 2 [0; 1; 1] [Some 1; Some 2].
Proof.
  apply (perform_move_keeps_counts 1 3 2 [1; 2; 9]%float [0; 0; 1]
           [1.5; 9; 0]%float [Some 2; Some 1] 1 1
           [0; 1; 1] [1; 5.5; 0]%float [Some 1; Some 2] true).
  - vm_compute. reflexivity.
  - lia.
  - intros c Hc.
    assert (E : c = 0 \/ c = 1) by lia.
    destruct E as [-> | ->]; vm_compute; reflexivity.
Defined.

(** ** What the assignment step reads *)






